(** * Shallow embedding of the WTAP "Mental Health Mondays" scraper

    The model follows [src/index.ts] (the YAML-generating variant, kept as
    [src/unnamed/part_002]) and, for the episode-number naming, the older
    [src/src/scraper.ts].  Library calls with no logic of their own here
    (the JSON parser, the HTML query engine, the regex engine on inline
    scripts, the WHATWG URL parser, the JavaScript date-string parser, the
    headless browser, the network and ffmpeg) are inputs of the model:
    Section variables, or fields of the per-episode input record. *)

From Stdlib Require Import ZArith Lia Ascii String Sorting.Sorted.
From stdpp Require Import base list gmap sets strings.

Local Open Scope string_scope.
Local Set Warnings "-register-all".

(* ------------------------------------------------------------------ *)
(** ** Strings and numbers as JavaScript prints them *)

Module JsStr.

Definition lower (c : ascii) : ascii :=
  let n := nat_of_ascii c in
  if (65 <=? n)%nat && (n <=? 90)%nat then ascii_of_nat (n + 32) else c.

Definition is_digit (c : ascii) : bool :=
  let n := nat_of_ascii c in (48 <=? n)%nat && (n <=? 57)%nat.

(** ASCII members of the regex class [\s]. *)
Definition is_space (c : ascii) : bool :=
  let n := nat_of_ascii c in
  (n =? 32)%nat || ((9 <=? n)%nat && (n <=? 13)%nat).

Definition digit_char (d : Z) : ascii := ascii_of_nat (48 + Z.to_nat d).

(** Decimal digits of a non-negative integer. *)
Fixpoint digits (fuel : nat) (n : Z) : string :=
  match fuel with
  | O => EmptyString
  | S f =>
      if (n <? 10)%Z then String (digit_char n) EmptyString
      else digits f (n / 10)%Z ++ String (digit_char (n mod 10)%Z) EmptyString
  end.

(** [String(n)] for an integral number. *)
Definition of_Z (n : Z) : string :=
  if (n <? 0)%Z then "-" ++ digits 40 (- n)%Z else digits 40 n.

(** [s.padStart(k, "0")]. *)
Definition pad_start (k : nat) (s : string) : string :=
  string_of_list_ascii (repeat "0"%char (k - String.length s))
  ++ s.

Fixpoint drop_space (l : list ascii) : list ascii :=
  match l with
  | c :: r => if is_space c then drop_space r else l
  | [] => []
  end.

(** [s.trim()] on ASCII white space. *)
Definition trim (s : string) : string :=
  string_of_list_ascii
    (rev (drop_space (rev (drop_space (list_ascii_of_string s))))).

End JsStr.

(* ------------------------------------------------------------------ *)
(** ** Dates: a JavaScript [Date] is a time value in milliseconds *)

Module JsDate.

Local Open Scope Z_scope.

Definition ms_per_day : Z := 86400000.

(** Proleptic Gregorian (year, month 1..12, day) of a day count since
    1970-01-01. *)
Definition civil_from_days (days : Z) : Z * Z * Z :=
  let z := days + 719468 in
  let era := z / 146097 in
  let doe := z - era * 146097 in
  let yoe := (doe - doe / 1460 + doe / 36524 - doe / 146096) / 365 in
  let y := yoe + era * 400 in
  let doy := doe - (365 * yoe + yoe / 4 - yoe / 100) in
  let mp := (5 * doy + 2) / 153 in
  let d := doy - (153 * mp + 2) / 5 + 1 in
  let m := if mp <? 10 then mp + 3 else mp - 9 in
  (if m <=? 2 then y + 1 else y, m, d).

(** [getUTCFullYear()], [getUTCMonth() + 1], [getUTCDate()]. *)
Definition utc_ymd (t : Z) : Z * Z * Z := civil_from_days (t / ms_per_day).

(** [toISOString()] of a valid time value. *)
Definition to_iso_string (t : Z) : string :=
  let '(y, m, d) := utc_ymd t in
  let r := t mod ms_per_day in
  let ys :=
    if (0 <=? y)%Z && (y <=? 9999)%Z then JsStr.pad_start 4 (JsStr.of_Z y)
    else String.append (if (y <? 0)%Z then "-" else "+")
           (JsStr.pad_start 6 (JsStr.of_Z (Z.abs y))) in
  (ys ++ "-" ++ JsStr.pad_start 2 (JsStr.of_Z m)
      ++ "-" ++ JsStr.pad_start 2 (JsStr.of_Z d)
      ++ "T" ++ JsStr.pad_start 2 (JsStr.of_Z (r / 3600000))
      ++ ":" ++ JsStr.pad_start 2 (JsStr.of_Z (r / 60000 mod 60))
      ++ ":" ++ JsStr.pad_start 2 (JsStr.of_Z (r / 1000 mod 60))
      ++ "." ++ JsStr.pad_start 3 (JsStr.of_Z (r mod 1000)) ++ "Z")%string.

End JsDate.

(* ------------------------------------------------------------------ *)
(** ** Artifact file names *)

Module Naming.

Section Naming.

(** [new Date(s)] on a string: [None] is an invalid date ([NaN]). *)
Variable parse_date : string -> option Z.
(** Offset of local time from UTC at an instant, in milliseconds: the
    time zone the process runs in. *)
Variable tz_offset : Z -> Z.

(** [getFullYear()], [getMonth() + 1], [getDate()]. *)
Definition local_ymd (t : Z) : Z * Z * Z :=
  JsDate.utc_ymd (t + tz_offset t)%Z.

(** [buildFilenameFromPubDate(pubDate)]; [now] is the value of
    [new Date()] when the function runs. *)
Definition buildFilenameFromPubDate (pubDate : option string) (now : Z)
  : string :=
  let dateStr :=
    match pubDate with
    | Some p =>
        if String.eqb p EmptyString then None
        else match parse_date p with
             | Some t =>
                 let '(yyyy, mm, dd) := local_ymd t in
                 Some (JsStr.of_Z yyyy ++ "-"
                       ++ JsStr.pad_start 2 (JsStr.of_Z mm) ++ "-"
                       ++ JsStr.pad_start 2 (JsStr.of_Z dd))
             | None => None
             end
    | None => None
    end in
  let dateStr :=
    match dateStr with
    | Some d => d
    | None => substring 0 10 (JsDate.to_iso_string now)
    end in
  "Mental-Health-Mondays-" ++ dateStr ++ ".mp4".

End Naming.

Fixpoint take_digits (l : list ascii) : list ascii :=
  match l with
  | c :: r => if JsStr.is_digit c then c :: take_digits r else []
  | [] => []
  end.

(** The regex [/Ep\.?\s*(\d+)/i] at one position: the captured digits. *)
Definition ep_at (l : list ascii) : option (list ascii) :=
  match l with
  | e :: p :: r =>
      if (JsStr.lower e =? "e")%char && (JsStr.lower p =? "p")%char then
        let r1 := match r with
                  | c :: r' => if (c =? ".")%char then r' else r
                  | [] => r
                  end in
        let r2 := JsStr.drop_space r1 in
        match take_digits r2 with [] => None | ds => Some ds end
      else None
  | _ => None
  end.

(** First match of the regex, scanning left to right. *)
Fixpoint ep_search (l : list ascii) : option (list ascii) :=
  match ep_at l with
  | Some ds => Some ds
  | None => match l with _ :: r => ep_search r | [] => None end
  end.

(** [sanitizeFilename(title)] of [src/src/scraper.ts]. *)
Definition sanitizeFilename (title : string) (now : Z) : string :=
  let epNum :=
    match ep_search (list_ascii_of_string title) with
    | Some ds => string_of_list_ascii ds
    | None => substring 0 10 (JsDate.to_iso_string now)
    end in
  "Mental-Health-Mondays-Ep" ++ epNum ++ ".mp4".

(** [filename.replace(/\.mp4$/i, ".mp3")]. *)
Definition to_mp3 (filename : string) : string :=
  let l := list_ascii_of_string filename in
  let n := length l in
  if (4 <=? n)%nat
     && bool_decide (map JsStr.lower (drop (n - 4) l)
                     = list_ascii_of_string ".mp4")
  then string_of_list_ascii (take (n - 4) l) ++ ".mp3"
  else filename.

End Naming.

(* ------------------------------------------------------------------ *)
(** ** Evaluation outcome: a value, or an exception that propagates *)

Inductive Res (A : Type) : Type :=
| Ret (a : A)
| Throw.
Arguments Ret {A} a.
Arguments Throw {A}.

(* ------------------------------------------------------------------ *)
(** ** JSON values, as [JSON.parse] returns them *)

Module Json.

Inductive json : Type :=
| JNull
| JBool (b : bool)
| JNum (n : Z)
| JStr (s : string)
| JArr (l : list json)
| JObj (fields : list (string * json)).

(** JavaScript truthiness of a JSON value. *)
Definition truthy (v : json) : bool :=
  match v with
  | JNull => false
  | JBool b => b
  | JNum n => negb (n =? 0)%Z
  | JStr s => negb (String.eqb s EmptyString)
  | JArr _ | JObj _ => true
  end.

(** Truthiness of a value that may be [undefined] ([None]). *)
Definition truthy_opt (v : option json) : bool :=
  match v with Some x => truthy x | None => false end.

(** Own property of an object; [JSON.parse] keeps the last duplicate key. *)
Fixpoint field (fs : list (string * json)) (k : string) : option json :=
  match fs with
  | [] => None
  | (k', v) :: r =>
      match field r k with
      | Some w => Some w
      | None => if String.eqb k' k then Some v else None
      end
  end.

(** Property read [v.k]: a [TypeError] on [null], [undefined] on a
    primitive or an array for the keys the scraper reads. *)
Definition get (v : json) (k : string) : Res (option json) :=
  match v with
  | JNull => Throw
  | JObj fs => Ret (field fs k)
  | _ => Ret None
  end.

End Json.

(* ------------------------------------------------------------------ *)
(** ** The video-URL resolver [extractVideoUrl] *)

Module Resolver.
Import Json.

(** The regex [/\.(?:m3u8|mp4)(?:\?|$)/i] tested against a string. *)
Fixpoint media_at (l : list ascii) : bool :=
  let ext_end r := match r with [] => true | c :: _ => (c =? "?")%char end in
  match l with
  | [] => false
  | d :: r =>
      ((d =? ".")%char &&
         (match map JsStr.lower r with
          | "m" :: "3" :: "u" :: "8" :: r' => ext_end r'
          | _ => false
          end%char
          || match map JsStr.lower r with
             | "m" :: "p" :: "4" :: r' => ext_end r'
             | _ => false
             end%char))
      || media_at r
  end.

Definition is_media_url (s : string) : bool := media_at (list_ascii_of_string s).

(** [a || b] on [string | undefined]. *)
Definition or_str (a b : option string) : option string :=
  match a with
  | Some s => if String.eqb s EmptyString then b else a
  | None => b
  end.

Definition truthy_str (a : option string) : bool :=
  match a with Some s => negb (String.eqb s EmptyString) | None => false end.

(** What the HTML of an episode page yields to the queries of the
    resolver (cheerio selectors and the match on the raw HTML). *)
Record Page := {
  (** capture group of [html.match(/Fusion\.globalContent=({[\s\S]*?});/)] *)
  pg_fusion : option string;
  (** [$("video source").attr("src")] *)
  pg_video_source_src : option string;
  (** [$("video").attr("src")] *)
  pg_video_src : option string;
  (** [$(el).html()], or the empty string, for each [script] element *)
  pg_scripts : list string;
  (** [$("[data-video-src]").attr("data-video-src")] *)
  pg_data_video_src : option string;
  (** [$("[data-src]").attr("data-src")] *)
  pg_data_src : option string;
  (** [$("[data-url]").attr("data-url")] *)
  pg_data_url : option string
}.

(** What the headless browser does when the page is rendered. *)
Record Render := {
  (** [puppeteer.launch] resolves (a browser exists to be closed) *)
  rd_launch_ok : bool;
  (** [newPage] and [page.goto] resolve (no navigation timeout) *)
  rd_goto_ok : bool;
  (** responses observed during navigation: URL and status *)
  rd_responses : list (string * Z);
  (** [page.evaluate]: [None] if it rejects, else its result ([null] as
      [None]) *)
  rd_eval : option (option string);
  (** [browser.close()] resolves *)
  rd_close_ok : bool
}.

Section Resolver.

(** [JSON.parse]: [None] is a [SyntaxError]. *)
Variable json_parse : string -> option json.
(** The first regex of strategy 3 on the script text (an absolute
    http(s) URL ending in .m3u8 or .mp4, with an optional query): the
    whole match. *)
Variable script_abs_url : string -> option string.
(** The second regex of strategy 3 (a quoted http(s) media URL assigned
    to a file, src, source or url key): the captured URL. *)
Variable script_key_url : string -> option string.

(** [streams.find((s) => s.stream_type === ty)]; the callback throws on a
    [null] element. *)
Fixpoint find_stream (ss : list json) (ty : string) : Res (option json) :=
  match ss with
  | [] => Ret None
  | s :: r =>
      match get s "stream_type" with
      | Throw => Throw
      | Ret (Some (JStr t)) => if String.eqb t ty then Ret (Some s) else find_stream r ty
      | Ret _ => find_stream r ty
      end
  end.

(** [x?.url] on the result of [find]. *)
Definition opt_url (found : option json) : Res (option json) :=
  match found with None => Ret None | Some s => get s "url" end.

(** The body of the [try] of strategy 1: [Ret (Some u)] returns [u]. *)
Definition fusion_body (md : json) : Res (option json) :=
  match get md "streams" with
  | Throw => Throw
  | Ret (Some (JArr ss)) =>
      match find_stream ss "mp4" with
      | Throw => Throw
      | Ret mp4Stream =>
          match opt_url mp4Stream with
          | Throw => Throw
          | Ret u =>
              if truthy_opt u then Ret u
              else match find_stream ss "ts" with
                   | Throw => Throw
                   | Ret hlsStream =>
                       match opt_url hlsStream with
                       | Throw => Throw
                       | Ret u' => if truthy_opt u' then Ret u' else Ret None
                       end
                   end
          end
      end
  | Ret _ => Ret None
  end.

(** Strategy 1, Arc/Fusion metadata; the [catch] turns every exception
    into a miss. *)
Definition strategy_fusion (pg : Page) : option json :=
  match pg_fusion pg with
  | None => None
  | Some blob =>
      match json_parse blob with
      | None => None
      | Some md => match fusion_body md with Ret u => u | Throw => None end
      end
  end.

(** Strategy 2, [<video><source>]. *)
Definition strategy_markup (pg : Page) : option string :=
  let videoSrc := or_str (pg_video_source_src pg) (pg_video_src pg) in
  if truthy_str videoSrc then videoSrc else None.

(** Strategy 3, media URLs in inline scripts. *)
Definition strategy_scripts (pg : Page) : option string :=
  let scriptsText :=
    String.concat (String (ascii_of_nat 10) EmptyString) (pg_scripts pg) in
  let urlFromScripts := or_str (script_abs_url scriptsText)
                               (script_key_url scriptsText) in
  if truthy_str urlFromScripts then urlFromScripts else None.

(** Strategy 4, player data attributes. *)
Definition strategy_data (pg : Page) : option string :=
  let dataUrl := or_str (pg_data_video_src pg)
                   (or_str (pg_data_src pg) (pg_data_url pg)) in
  match dataUrl with
  | Some u => if truthy_str dataUrl && is_media_url u then Some u else None
  | None => None
  end.

(** The response listener: the first media response with status < 400. *)
Fixpoint capture (rs : list (string * Z)) : option string :=
  match rs with
  | [] => None
  | (u, st) :: r => if is_media_url u && (st <? 400)%Z then Some u else capture r
  end.

(** The value the [try] block of strategy 5 returns, if any (every
    exception in it is caught). *)
Definition render_try (rd : Render) : option string :=
  if rd_launch_ok rd && rd_goto_ok rd then
    match rd_eval rd with
    | None => None
    | Some domUrl =>
        if truthy_str domUrl then domUrl
        else let c := capture (rd_responses rd) in
             if truthy_str c then c else None
    end
  else None.

(** Strategy 5 with its [finally]: a rejected [browser.close()] replaces
    the outcome of the [try]. *)
Definition strategy_render (rd : Render) : Res (option string) :=
  if rd_launch_ok rd && negb (rd_close_ok rd) then Throw
  else Ret (render_try rd).

(** [extractVideoUrl(pageUrl)]; [fetched] is the outcome of
    [fetchPage(pageUrl)], which rethrows HTTP and network errors. *)
Definition extractVideoUrl (fetched : option Page) (rd : Render)
  : Res (option json) :=
  match fetched with
  | None => Throw
  | Some pg =>
      match strategy_fusion pg with
      | Some u => Ret (Some u)
      | None =>
          match strategy_markup pg with
          | Some s => Ret (Some (JStr s))
          | None =>
              match strategy_scripts pg with
              | Some s => Ret (Some (JStr s))
              | None =>
                  match strategy_data pg with
                  | Some s => Ret (Some (JStr s))
                  | None =>
                      match strategy_render rd with
                      | Throw => Throw
                      | Ret (Some s) => Ret (Some (JStr s))
                      | Ret None => Ret None
                      end
                  end
              end
          end
      end
  end.

End Resolver.

End Resolver.

(* ------------------------------------------------------------------ *)
(** ** Episode discovery [searchForVideos] *)

Module Discovery.

Definition SEARCH_URL : string :=
  "https://www.wtap.com/wtap-plus/podcasts/mental-health-mondays/".

Definition SITE : string := "https://www.wtap.com".

Definition DEFAULT_TITLE : string := "Mental Health Mondays".

(** A parsed WHATWG URL, as far as the scraper reads it. *)
Record Url := { u_href : string; u_pathname : string }.

Record VideoInfo := { vi_title : string; vi_url : string }.

(** A [div.card-body] element of the rendered listing. *)
Record Card := {
  (** [$(card).find("a[href]").first().attr("href")] *)
  card_href : option string;
  (** [$(card).find("h1, h2, h3").first().text()] *)
  card_heading : string;
  (** [linkEl.text()] *)
  card_link_text : string
}.

(** An [a[href]] element of the rendered listing. *)
Record Anchor := { a_href : option string; a_text : string }.

(** The rendered listing: its cards and all its anchors, in document
    order. *)
Record Listing := { l_cards : list Card; l_anchors : list Anchor }.

(** [s.replace(/\/?$/, "/")]. *)
Definition ensure_slash (s : string) : string :=
  match rev (list_ascii_of_string s) with
  | c :: _ => if (c =? "/")%char then s else s ++ "/"
  | [] => "/"
  end.

Definition starts_with_http (s : string) : bool := String.prefix "http" s.

(** The regex [/^\/\d{4}\/\d{2}\/\d{2}\//]. *)
Definition date_path (p : string) : bool :=
  match list_ascii_of_string p with
  | s0 :: y1 :: y2 :: y3 :: y4 :: s1 :: m1 :: m2 :: s2 :: d1 :: d2 :: s3 :: _ =>
      (s0 =? "/")%char && JsStr.is_digit y1 && JsStr.is_digit y2
      && JsStr.is_digit y3 && JsStr.is_digit y4 && (s1 =? "/")%char
      && JsStr.is_digit m1 && JsStr.is_digit m2 && (s2 =? "/")%char
      && JsStr.is_digit d1 && JsStr.is_digit d2 && (s3 =? "/")%char
  | _ => false
  end.

Section Discovery.

(** [new URL(input)] ([base] = [None]) or [new URL(input, base)]; [None]
    when the constructor throws. *)
Variable url_parse : string -> option string -> option Url.

Definition parse_href (href : string) : option Url :=
  if starts_with_http href then url_parse href None
  else url_parse href (Some SITE).

Definition isEpisodeUrl (href : string) : bool :=
  match parse_href href with
  | None => false
  | Some u =>
      if String.eqb (ensure_slash (u_href u)) SEARCH_URL then false
      else if String.eqb (u_pathname u) "/homepage" then false
      else date_path (u_pathname u)
  end.

(** [href.startsWith("http") ? href : new URL(href, base).href]. *)
Definition absolute (href : string) : Res string :=
  if starts_with_http href then Ret href
  else match url_parse href (Some SITE) with
       | Some u => Ret (u_href u)
       | None => Throw
       end.

Definition trimmed_href (h : option string) : option string :=
  match h with
  | Some s => let t := JsStr.trim s in if String.eqb t EmptyString then None else Some t
  | None => None
  end.

(** [if (!videos.some((v) => v.url === url)) videos.push({ title, url })]. *)
Definition push_new (videos : list VideoInfo) (title url : string)
  : list VideoInfo :=
  if existsb (fun v => String.eqb (vi_url v) url) videos then videos
  else videos ++ [{| vi_title := title; vi_url := url |}].

Definition first_nonempty (a b c : string) : string :=
  if String.eqb a EmptyString then (if String.eqb b EmptyString then c else b) else a.

(** The callback of [$("div.card-body").each]. *)
Definition card_step (videos : list VideoInfo) (card : Card)
  : Res (list VideoInfo) :=
  match trimmed_href (card_href card) with
  | None => Ret videos
  | Some href =>
      if negb (isEpisodeUrl href) then Ret videos
      else match absolute href with
           | Throw => Throw
           | Ret url =>
               if String.eqb (ensure_slash url) SEARCH_URL then Ret videos
               else
                 let title := first_nonempty (JsStr.trim (card_heading card))
                                (JsStr.trim (card_link_text card)) DEFAULT_TITLE in
                 Ret (push_new videos title url)
           end
  end.

(** The callback of the fallback [$("a[href]").each]. *)
Definition anchor_step (videos : list VideoInfo) (a : Anchor)
  : Res (list VideoInfo) :=
  match trimmed_href (a_href a) with
  | None => Ret videos
  | Some href =>
      if negb (isEpisodeUrl href) then Ret videos
      else match absolute href with
           | Throw => Throw
           | Ret url =>
               let title := first_nonempty (JsStr.trim (a_text a)) EmptyString
                              DEFAULT_TITLE in
               Ret (push_new videos title url)
           end
  end.

Fixpoint each {A} (step : list VideoInfo -> A -> Res (list VideoInfo))
  (videos : list VideoInfo) (xs : list A) : Res (list VideoInfo) :=
  match xs with
  | [] => Ret videos
  | x :: r => match step videos x with
              | Throw => Throw
              | Ret v => each step v r
              end
  end.

(** [searchForVideos()] after the listing has been rendered. *)
Definition searchForVideos (lst : Listing) : Res (list VideoInfo) :=
  match each card_step [] (l_cards lst) with
  | Throw => Throw
  | Ret [] => each anchor_step [] (l_anchors lst)
  | Ret videos => Ret videos
  end.

End Discovery.

End Discovery.

(* ------------------------------------------------------------------ *)
(** ** The YAML episode catalog [upsertEpisodes] *)

Module Catalog.

(** [EpisodeYaml]. *)
Record EpisodeYaml := {
  file : string;
  title : string;
  description : string;
  pub_date : string;
  explicit : bool;
  season : Z;
  episode : Z;
  episode_type : string
}.

(** [Omit<EpisodeYaml, "episode">]. *)
Record NewEpisode := {
  n_file : string;
  n_title : string;
  n_description : string;
  n_pub_date : string;
  n_explicit : bool;
  n_season : Z;
  n_episode_type : string
}.

(** [{ ...ep, episode: k }]. *)
Definition with_episode (ep : NewEpisode) (k : Z) : EpisodeYaml := {|
  file := n_file ep; title := n_title ep; description := n_description ep;
  pub_date := n_pub_date ep; explicit := n_explicit ep; season := n_season ep;
  episode := k; episode_type := n_episode_type ep |}.

(** [TemplateYaml]: the keys other than [episodes] are carried along
    untouched; [doc_episodes] is [None] when [episodes] is not an array. *)
Record TemplateYaml := {
  doc_rest : list (string * string);
  doc_episodes : option (list EpisodeYaml)
}.

(** [Array.prototype.sort] with a numeric comparator [key a - key b]:
    a stable sort, here insertion of each element after all elements
    whose key is not greater. *)
Fixpoint ins {A} (key : A -> Z) (x : A) (l : list A) : list A :=
  match l with
  | [] => [x]
  | y :: r => if (key x <? key y)%Z then x :: y :: r else y :: ins key x r
  end.

Definition stable_sort {A} (key : A -> Z) (l : list A) : list A :=
  fold_left (fun acc x => ins key x acc) l [].

(** [episodes.reduce((m, e) => Math.max(m, e.episode || 0), 0)]. *)
Definition existing_max (episodes : list EpisodeYaml) : Z :=
  fold_left (fun m e => Z.max m (episode e)) episodes 0%Z.

(** The [for] loop: already-present files are skipped without consuming
    a number. *)
Fixpoint upsert_loop (existingFiles : gset string) (next : Z)
  (news : list NewEpisode) : list EpisodeYaml :=
  match news with
  | [] => []
  | ep :: r =>
      if bool_decide (n_file ep ∈ existingFiles) then upsert_loop existingFiles next r
      else with_episode ep next
           :: upsert_loop ({[n_file ep]} ∪ existingFiles) (next + 1)%Z r
  end.

Definition upsertEpisodes (doc : TemplateYaml) (newEpisodes : list NewEpisode)
  : TemplateYaml :=
  let episodes := default [] (doc_episodes doc) in
  let existingFiles : gset string := list_to_set (map file episodes) in
  let next := (existing_max episodes + 1)%Z in
  let episodes' := (episodes ++ upsert_loop existingFiles next newEpisodes)%list in
  {| doc_rest := doc_rest doc;
     doc_episodes := Some (stable_sort episode episodes') |}.

Section Merge.

(** [new Date(s).getTime()] of the ISO strings [main] stores in
    [pub_date]. *)
Variable pub_time : string -> Z.

(** Lines 602-607 of [main]: the new entries sorted by publication date,
    then merged. *)
Definition mergeCatalog (doc : TemplateYaml) (news : list NewEpisode)
  : TemplateYaml :=
  upsertEpisodes doc (stable_sort (fun e => pub_time (n_pub_date e)) news).

End Merge.

End Catalog.

(* ------------------------------------------------------------------ *)
(** ** The acquisition pipeline: [downloadVideo], [extractAudio], [main] *)

Module Pipeline.
Import Json Catalog.

(** The behaviour of the library code the pipeline calls. *)
Record Env := {
  env_parse_date : string -> option Z;
  env_tz_offset : Z -> Z;
  env_json_parse : string -> option json;
  env_script_abs_url : string -> option string;
  env_script_key_url : string -> option string;
  env_pub_time : string -> Z
}.

(** [ArticleMeta], as [fetchArticleMeta] returns it (it never throws). *)
Record ArticleMeta := {
  m_title : option string;
  m_description : option string;
  m_pubDate : option string
}.

(** The streamed download of [downloadVideo]. *)
Inductive Download :=
| DlOk            (** the whole body is written to the video file *)
| DlFailEarly     (** [axios.get] rejects (HTTP error, timeout): no file *)
| DlFailPartial.  (** the stream fails after the file was created *)

(** The ffmpeg subprocess of [extractAudio]. *)
Inductive Transcode :=
| TrOk
| TrFail (left_output : bool).  (** non-zero exit; whether an output file was left *)

(** Everything one iteration of the loop of [main] depends on. *)
Record EpisodeInput := {
  ep_video : Discovery.VideoInfo;
  ep_page : option Resolver.Page;  (** [fetchPage(video.url)]; [None]: it throws *)
  ep_render : Resolver.Render;
  ep_meta : ArticleMeta;
  ep_now : Z;                      (** [new Date()] in [buildFilenameFromPubDate] *)
  ep_yaml_now : Z;                 (** [new Date()] for a missing [pub_date] *)
  ep_download : Download;
  ep_transcode : Transcode
}.

Inductive Event :=
| EvDownload (videoUrl : json) (filename : string)
| EvTranscode (filename : string)
| EvTag (audio : string).

(** Files of [DATA_DIR], by file name. *)
Abbreviation Files := (gset string).

Record State := {
  st_files : Files;
  st_log : list Event;
  st_yaml : list NewEpisode       (** [episodesForYaml] *)
}.

Definition log (st : State) (e : Event) : State :=
  {| st_files := st_files st; st_log := st_log st ++ [e]; st_yaml := st_yaml st |}.

Definition set_files (st : State) (fs : Files) : State :=
  {| st_files := fs; st_log := st_log st; st_yaml := st_yaml st |}.

Definition push_yaml (st : State) (e : NewEpisode) : State :=
  {| st_files := st_files st; st_log := st_log st; st_yaml := st_yaml st ++ [e] |}.

(** [downloadVideo(videoUrl, filename)]. *)
Definition downloadVideo (st : State) (dl : Download) (videoUrl : json)
  (filename : string) : State * bool :=
  let audioPath := Naming.to_mp3 filename in
  if bool_decide (audioPath ∈ st_files st) then (st, false)
  else if bool_decide (filename ∈ st_files st) then (st, true)
  else
    let st := log st (EvDownload videoUrl filename) in
    match dl with
    | DlOk => (set_files st ({[filename]} ∪ st_files st), true)
    | DlFailEarly => (set_files st (st_files st ∖ {[filename]}), false)
    | DlFailPartial =>
        (set_files st (({[filename]} ∪ st_files st) ∖ {[filename]}), false)
    end.

(** [extractAudio(videoFilename)]. *)
Definition extractAudio (st : State) (tr : Transcode) (videoFilename : string)
  : State * bool :=
  let audioPath := Naming.to_mp3 videoFilename in
  let st := log st (EvTranscode videoFilename) in
  match tr with
  | TrOk => (set_files st (({[audioPath]} ∪ st_files st) ∖ {[videoFilename]}), true)
  | TrFail leftover => (if leftover then set_files st ({[audioPath]} ∪ st_files st) else st, false)
  end.

Section Main.

Variable E : Env.
(** [GENERATE_YAML]. *)
Variable generate_yaml : bool.

Definition filename_of (ep : EpisodeInput) : string :=
  Naming.buildFilenameFromPubDate (env_parse_date E) (env_tz_offset E)
    (m_pubDate (ep_meta ep)) (ep_now ep).

(** The YAML entry of lines 575-586; [toISOString] throws on an invalid
    date, and the [catch] of line 589 drops the entry. *)
Definition yaml_entry (ep : EpisodeInput) (audioPath : string)
  : option NewEpisode :=
  let meta := ep_meta ep in
  let t :=
    match m_pubDate meta with
    | Some p => if String.eqb p EmptyString then Some (ep_yaml_now ep)
                else env_parse_date E p
    | None => Some (ep_yaml_now ep)
    end in
  match t with
  | None => None
  | Some t =>
      Some {| n_file := audioPath;
              n_title := default Discovery.DEFAULT_TITLE (m_title meta);
              n_description := default EmptyString (m_description meta);
              n_pub_date := JsDate.to_iso_string t;
              n_explicit := false; n_season := 1%Z;
              n_episode_type := "full" |}
  end.

(** Lines 567-591: tag and queue a catalog entry if the audio exists. *)
Definition tag_phase (st : State) (ep : EpisodeInput) (audioPath : string)
  : State :=
  if bool_decide (audioPath ∈ st_files st) then
    let st := log st (EvTag audioPath) in
    if generate_yaml then
      match yaml_entry ep audioPath with
      | Some e => push_yaml st e
      | None => st
      end
    else st
  else st.

(** One iteration of the [for] loop of [main]. *)
Definition process_episode (st : State) (ep : EpisodeInput) : Res State :=
  match Resolver.extractVideoUrl (env_json_parse E) (env_script_abs_url E)
          (env_script_key_url E) (ep_page ep) (ep_render ep) with
  | Throw => Throw
  | Ret videoUrl =>
      if negb (truthy_opt videoUrl) then Ret st
      else
        let url := default JNull videoUrl in
        let filename := filename_of ep in
        let '(st, downloaded) := downloadVideo st (ep_download ep) url filename in
        let audioPath := Naming.to_mp3 filename in
        if downloaded then
          let '(st, extracted) := extractAudio st (ep_transcode ep) filename in
          if negb extracted then Ret st else Ret (tag_phase st ep audioPath)
        else Ret (tag_phase st ep audioPath)
  end.

(** The loop; [true] when an exception escaped it (it is thrown before
    the iteration changes anything). *)
Fixpoint process_all (st : State) (eps : list EpisodeInput) : State * bool :=
  match eps with
  | [] => (st, false)
  | ep :: r => match process_episode st ep with
               | Throw => (st, true)
               | Ret st' => process_all st' r
               end
  end.

(** The data directory and the persisted [episodes.yml], if any. *)
Record World := { w_files : Files; w_catalog : option TemplateYaml }.

Record Outcome := {
  o_world : World;
  o_log : list Event;
  o_aborted : bool     (** [process.exit(1)] from the outer [catch] *)
}.

(** [readYamlTemplateOrExisting(outPath, templatePath)]. *)
Definition read_catalog (template : option TemplateYaml) (w : World)
  : TemplateYaml :=
  match w_catalog w with
  | Some d => d
  | None => match template with
            | Some t => t
            | None => {| doc_rest := []; doc_episodes := Some [] |}
            end
  end.

(** [main()], given the episodes [searchForVideos] discovered, the
    template file and whether [writeYaml] succeeds. *)
Definition main (template : option TemplateYaml) (write_ok : bool)
  (w : World) (videos : list EpisodeInput) : Outcome :=
  match videos with
  | [] => {| o_world := w; o_log := []; o_aborted := false |}
  | _ =>
      let st0 := {| st_files := w_files w; st_log := []; st_yaml := [] |} in
      let '(st, aborted) := process_all st0 videos in
      if aborted then
        {| o_world := {| w_files := st_files st; w_catalog := w_catalog w |};
           o_log := st_log st; o_aborted := true |}
      else
        let cat :=
          if generate_yaml && negb (bool_decide (st_yaml st = [])) then
            let updated := mergeCatalog (env_pub_time E)
                             (read_catalog template w) (st_yaml st) in
            if write_ok then Some updated else w_catalog w
          else w_catalog w in
        {| o_world := {| w_files := st_files st; w_catalog := cat |};
           o_log := st_log st; o_aborted := false |}
  end.

End Main.

(** Successive runs of the tool over the same data directory. *)
Fixpoint run_all (E : Env) (gy : bool) (w : World)
  (runs : list (option TemplateYaml * bool * list EpisodeInput)) : World :=
  match runs with
  | [] => w
  | (template, write_ok, videos) :: r =>
      run_all E gy (o_world (main E gy template write_ok w videos)) r
  end.

End Pipeline.

(* ------------------------------------------------------------------ *)
(** ** Concrete inputs *)

Module Samples.
Import Json Resolver Pipeline.

Definition day0 : Z := 1704067200000%Z.  (** 2024-01-01T00:00:00.000Z *)

(** A library behaviour: one parseable date string, UTC. *)
Definition env0 : Env := {|
  env_parse_date := fun s => if String.eqb s "2024-01-01" then Some day0 else None;
  env_tz_offset := fun _ => 0%Z;
  env_json_parse := fun _ => None;
  env_script_abs_url := fun _ => None;
  env_script_key_url := fun _ => None;
  env_pub_time := fun _ => 0%Z
|}.

Definition page_blank : Page := {|
  pg_fusion := None; pg_video_source_src := None; pg_video_src := None;
  pg_scripts := []; pg_data_video_src := None; pg_data_src := None;
  pg_data_url := None |}.

Definition media_url : string := "https://cdn.example/ep.mp4".

(** A page with a static [<video src>]. *)
Definition page_video : Page := {|
  pg_fusion := None; pg_video_source_src := None; pg_video_src := Some media_url;
  pg_scripts := []; pg_data_video_src := None; pg_data_src := None;
  pg_data_url := None |}.

(** The browser cannot be launched. *)
Definition render_off : Render := {|
  rd_launch_ok := false; rd_goto_ok := false; rd_responses := [];
  rd_eval := None; rd_close_ok := true |}.

Definition video0 : Discovery.VideoInfo :=
  {| Discovery.vi_title := "Mental Health Mondays";
     Discovery.vi_url := "https://www.wtap.com/2024/01/01/ep/" |}.

Definition meta0 : ArticleMeta :=
  {| m_title := Some "Ep"; m_description := None; m_pubDate := Some "2024-01-01" |}.

Definition episode (pg : option Page) (dl : Download) (tr : Transcode) : EpisodeInput :=
  {| ep_video := video0; ep_page := pg; ep_render := render_off; ep_meta := meta0;
     ep_now := day0; ep_yaml_now := day0; ep_download := dl; ep_transcode := tr |}.

(** The names the pipeline derives for [episode]. *)
Definition video_name : string := "Mental-Health-Mondays-2024-01-01.mp4".
Definition audio_name : string := "Mental-Health-Mondays-2024-01-01.mp3".

End Samples.

(* ------------------------------------------------------------------ *)
(** ** Article metadata and ID3 tags *)

Module Meta.
Import Pipeline.

(** What the HTML of an article yields to the queries of
    [fetchArticleMeta]. *)
Record MetaPage := {
  (** [$("meta[property='og:title']").attr("content")] *)
  mp_og_title : option string;
  (** [$("title").text()] (the empty string when there is none) *)
  mp_title_text : string;
  (** [$("meta[name='description']").attr("content")] *)
  mp_description : option string;
  (** [$("meta[property='og:description']").attr("content")] *)
  mp_og_description : option string;
  (** [$("meta[property='article:published_time']").attr("content")] *)
  mp_published_time : option string;
  (** [$("time[datetime]").attr("datetime")] *)
  mp_time_datetime : option string
}.

(** [fetchArticleMeta(pageUrl)]; [fetched] is the outcome of
    [fetchPage]: [None] when it throws, which the [catch] turns into
    [{}]. *)
Definition fetchArticleMeta (fetched : option MetaPage) : ArticleMeta :=
  match fetched with
  | None => {| m_title := None; m_description := None; m_pubDate := None |}
  | Some p =>
      let title := Resolver.or_str (mp_og_title p) (Some (mp_title_text p)) in
      let description :=
        Resolver.or_str (Resolver.or_str (mp_description p) (mp_og_description p))
          None in
      let pubDate :=
        Resolver.or_str (Resolver.or_str (mp_published_time p) (mp_time_datetime p))
          None in
      {| m_title := option_map JsStr.trim title;
         m_description := option_map JsStr.trim description;
         m_pubDate := pubDate |}
  end.

(** The node-id3 [Tags] object [tagAudio] builds. *)
Record Tags := {
  tg_title : option string;
  tg_artist : string;
  tg_album : string;
  tg_comment_language : string;
  tg_comment_text : string;
  tg_recordingTime : option string;
  tg_year : option string;
  tg_date : option string
}.

Section Tagging.

Variable parse_date : string -> option Z.
Variable tz_offset : Z -> Z.

(** The [tags] object of [tagAudio]. *)
Definition build_tags (meta : ArticleMeta) : Tags :=
  let base := {|
    tg_title := m_title meta; tg_artist := "WTAP";
    tg_album := "Mental Health Mondays"; tg_comment_language := "eng";
    tg_comment_text := default EmptyString (m_description meta);
    tg_recordingTime := None; tg_year := None; tg_date := None |} in
  match m_pubDate meta with
  | Some p =>
      if String.eqb p EmptyString then base
      else match parse_date p with
           | Some t =>
               let '(yyyy, mm0, dd0) := Naming.local_ymd tz_offset t in
               let mm := JsStr.pad_start 2 (JsStr.of_Z mm0) in
               let dd := JsStr.pad_start 2 (JsStr.of_Z dd0) in
               {| tg_title := tg_title base; tg_artist := tg_artist base;
                  tg_album := tg_album base;
                  tg_comment_language := tg_comment_language base;
                  tg_comment_text := tg_comment_text base;
                  tg_recordingTime := Some (JsStr.of_Z yyyy ++ "-" ++ mm ++ "-" ++ dd);
                  tg_year := Some (JsStr.of_Z yyyy);
                  tg_date := Some (dd ++ mm) |}
           | None => base
           end
  | None => base
  end.

(** [tagAudio(audioPath, meta)]; [update] is [nodeID3.update]: [Ret true]
    on success, [Ret false] when it returns an [Error], [Throw] when it
    throws. *)
Definition tagAudio (update : Tags -> string -> Res bool) (audioPath : string)
  (meta : ArticleMeta) : bool :=
  match update (build_tags meta) audioPath with
  | Ret b => b
  | Throw => false
  end.

End Tagging.

End Meta.

(* ------------------------------------------------------------------ *)
(** ** Reading the catalog *)

Module YamlIO.
Import Catalog.

(** What [parseYAML] returns for a catalog file: [null] (an empty
    document) or a mapping. *)
Inductive Parsed := PNull | PDoc (d : TemplateYaml).

(** [{}]. *)
Definition empty_doc : TemplateYaml := {| doc_rest := []; doc_episodes := None |}.

Section Read.

(** [parseYAML]; [None] when it throws. *)
Variable yaml_parse : string -> option Parsed.

(** [fs.readFile] then [(parseYAML(text) as TemplateYaml) ?? {}];
    [None] when either throws. [f] is the file's text, [None] when it
    cannot be read. *)
Definition read_attempt (f : option string) : option TemplateYaml :=
  match f with
  | None => None
  | Some text =>
      match yaml_parse text with
      | None => None
      | Some PNull => Some empty_doc
      | Some (PDoc d) => Some d
      end
  end.

(** [readYamlTemplateOrExisting(outPath, templatePath)], given the texts
    of the two files. *)
Definition readYamlTemplateOrExisting (out template : option string) : TemplateYaml :=
  match read_attempt out with
  | Some d => d
  | None =>
      match read_attempt template with
      | Some d => d
      | None => {| doc_rest := []; doc_episodes := Some [] |}
      end
  end.

End Read.

End YamlIO.

(* ================================================================== *)
(** * Properties *)

Local Open Scope list_scope.

(* ------------------------------------------------------------------ *)
(** ** The stable sort *)

Module SortFacts.
Import Catalog.

Section Key.
Context {A : Type} (key : A -> Z).

Definition le_key (a b : A) : Prop := (key a <= key b)%Z.

Lemma ins_perm (x : A) (l : list A) : ins key x l ≡ₚ x :: l.
Proof.
  induction l as [|y r IH]; simpl; [done|].
  destruct (key x <? key y)%Z; [done|].
  rewrite IH. by constructor.
Qed.

Lemma stable_sort_perm_acc (l acc : list A) :
  fold_left (fun acc x => ins key x acc) l acc ≡ₚ acc ++ l.
Proof.
  revert acc. induction l as [|x r IH]; intros acc; simpl.
  - by rewrite app_nil_r.
  - rewrite IH, ins_perm. by rewrite <- Permutation_middle.
Qed.

Lemma stable_sort_perm (l : list A) : stable_sort key l ≡ₚ l.
Proof. unfold stable_sort. by rewrite stable_sort_perm_acc. Qed.

Lemma ins_sorted (x : A) (l : list A) :
  StronglySorted le_key l -> StronglySorted le_key (ins key x l).
Proof.
  unfold le_key. induction l as [|y r IH]; intros Hs; simpl.
  - repeat constructor.
  - inversion Hs as [|? ? Hr Hy]; subst.
    destruct (key x <? key y)%Z eqn:Hxy.
    + apply Z.ltb_lt in Hxy. constructor; [done|].
      constructor; [lia|]. eapply Forall_impl; [exact Hy|]. simpl. lia.
    + apply Z.ltb_ge in Hxy. constructor; [by apply IH|].
      eapply Permutation_Forall; [symmetry; apply ins_perm|].
      constructor; [lia|done].
Qed.

Lemma stable_sort_sorted (l : list A) : StronglySorted le_key (stable_sort key l).
Proof.
  unfold stable_sort.
  cut (forall acc, StronglySorted le_key acc ->
         StronglySorted le_key (fold_left (fun acc x => ins key x acc) l acc)).
  { intros H. apply H. constructor. }
  induction l as [|x r IH]; intros acc Hacc; simpl; [done|].
  apply IH. by apply ins_sorted.
Qed.

Lemma ins_last (x : A) (l : list A) :
  Forall (fun y => le_key y x) l -> ins key x l = l ++ [x].
Proof.
  unfold le_key. induction l as [|y r IH]; intros Hf; simpl; [done|].
  inversion Hf; subst.
  destruct (key x <? key y)%Z eqn:Hxy; [apply Z.ltb_lt in Hxy; lia|].
  by rewrite IH.
Qed.

(** Sorting a list that is already sorted changes nothing. *)
Lemma stable_sort_id (l : list A) :
  StronglySorted le_key l -> stable_sort key l = l.
Proof.
  unfold stable_sort. intros Hs.
  cut (forall acc, StronglySorted le_key (acc ++ l) ->
         fold_left (fun acc x => ins key x acc) l acc = acc ++ l).
  { intros H. by apply (H []). }
  clear Hs. induction l as [|x r IH]; intros acc Hs; simpl.
  - by rewrite app_nil_r.
  - rewrite ins_last.
    + rewrite IH; [by rewrite <- app_assoc|]. by rewrite <- app_assoc.
    + clear IH. induction acc as [|y acc IHa]; [constructor|].
      simpl in Hs. inversion Hs as [|? ? Hr Hy]; subst.
      constructor.
      * rewrite Forall_app in Hy. destruct Hy as [_ Hy]. by inversion Hy.
      * by apply IHa.
Qed.

End Key.

End SortFacts.

(* ------------------------------------------------------------------ *)
(** ** The merge loop of [upsertEpisodes] *)

Module UpsertFacts.
Import Catalog SortFacts.

(** The entries the loop keeps, in order: those whose file is neither
    in the catalog nor kept before. *)
Fixpoint survivors (F : gset string) (news : list NewEpisode) : list NewEpisode :=
  match news with
  | [] => []
  | ep :: r =>
      if bool_decide (n_file ep ∈ F) then survivors F r
      else ep :: survivors ({[n_file ep]} ∪ F) r
  end.

(** Consecutive numbering from [k]. *)
Fixpoint number_from (k : Z) (l : list NewEpisode) : list EpisodeYaml :=
  match l with
  | [] => []
  | ep :: r => with_episode ep k :: number_from (k + 1)%Z r
  end.

Lemma upsert_loop_numbering F next news :
  upsert_loop F next news = number_from next (survivors F news).
Proof.
  revert F next. induction news as [|ep r IH]; intros F next; simpl; [done|].
  case_bool_decide; simpl; by rewrite IH.
Qed.

Lemma upsert_loop_mono F G next news :
  F ⊆ G -> (forall ep, ep ∈ news -> n_file ep ∈ G -> n_file ep ∈ F) ->
  upsert_loop F next news = upsert_loop G next news.
Proof.
  revert F G next. induction news as [|ep r IH]; intros F G next HFG Hback;
    simpl; [done|].
  case_bool_decide as HF; case_bool_decide as HG.
  - apply IH; [done|]. intros e He. apply Hback. by right.
  - set_solver.
  - exfalso. apply HF, Hback; [left|done].
  - f_equal. apply IH; [set_solver|].
    intros e He HeG. apply elem_of_union in HeG as [Hs|Hs]; [set_solver|].
    apply elem_of_union. right. apply Hback; [by right|done].
Qed.

(** A new entry whose file the loop already knows is skipped and does
    not consume a number, wherever it stands in the list. *)
Lemma upsert_loop_skip F next l1 ep l2 :
  n_file ep ∈ F ->
  upsert_loop F next (l1 ++ ep :: l2) = upsert_loop F next (l1 ++ l2).
Proof.
  revert F next. induction l1 as [|e r IH]; intros F next Hin; simpl.
  - by rewrite bool_decide_eq_true_2.
  - case_bool_decide.
    + by apply IH.
    + f_equal. apply IH. set_solver.
Qed.

Lemma upsert_loop_fresh F next news e :
  e ∈ upsert_loop F next news -> file e ∉ F.
Proof.
  revert F next. induction news as [|ep r IH]; intros F next; simpl.
  - set_solver.
  - case_bool_decide as Hin.
    + apply IH.
    + intros He. apply elem_of_cons in He as [->|He]; [done|].
      apply IH in He. set_solver.
Qed.

Lemma survivors_sublist F l : sublist (survivors F l) l.
Proof.
  revert F. induction l as [|ep r IH]; intros F; simpl; [constructor|].
  case_bool_decide; [by apply sublist_cons|]. by apply sublist_skip.
Qed.

Lemma survivors_sorted (key : NewEpisode -> Z) F l :
  StronglySorted (le_key key) l -> StronglySorted (le_key key) (survivors F l).
Proof.
  revert F. induction l as [|ep r IH]; intros F Hs; simpl; [constructor|].
  inversion Hs as [|? ? Hr Hf]; subst.
  case_bool_decide; [by apply IH|].
  constructor; [by apply IH|].
  rewrite Forall_forall in Hf |- *. intros x Hx. apply Hf.
  eapply elem_of_sublist; [exact Hx|apply survivors_sublist].
Qed.

End UpsertFacts.

Module CatalogClaims.
Import Catalog SortFacts UpsertFacts.

Lemma file_in_existing (es : list EpisodeYaml) (x : EpisodeYaml) :
  x ∈ es -> file x ∈ (list_to_set (map file es) : gset string).
Proof.
  intros Hx. apply elem_of_list_to_set, list_elem_of_In, in_map.
  by apply list_elem_of_In.
Qed.

Lemma filter_file_fresh (X : string) (F : gset string) next news :
  X ∈ F -> filter (fun e => file e = X) (upsert_loop F next news) = [].
Proof.
  intros HX. generalize (upsert_loop_fresh F next news).
  induction (upsert_loop F next news) as [|e r IH]; intros Hfr; [done|].
  rewrite filter_cons_False.
  - apply IH. intros e' He'. apply Hfr. by right.
  - intros <-. apply (Hfr e); [left|done].
Qed.

(** C4.  Merging a new entry whose artifact file [X] is already in the
    catalog has no effect: the result is the merge of the new list
    without that entry (so it takes no ordinal, and the next surviving
    entry gets the ordinal it would have taken), the existing entry
    stays in the catalog, and the number of entries with file [X] does
    not change (no duplicate is added). *)
Theorem upsert_duplicate_skipped (doc : TemplateYaml) (es : list EpisodeYaml)
  (x : EpisodeYaml) (l1 l2 : list NewEpisode) (ep : NewEpisode) :
  doc_episodes doc = Some es -> x ∈ es -> n_file ep = file x ->
  upsertEpisodes doc (l1 ++ ep :: l2) = upsertEpisodes doc (l1 ++ l2)
  /\ (forall d, doc_episodes (upsertEpisodes doc (l1 ++ ep :: l2)) = Some d ->
        x ∈ d
        /\ length (filter (fun e => file e = file x) d)
           = length (filter (fun e => file e = file x) es)).
Proof.
  intros Hdoc Hx Hf.
  assert (HX : file x ∈ (list_to_set (map file es) : gset string))
    by (by apply file_in_existing).
  split.
  - unfold upsertEpisodes. rewrite Hdoc. simpl.
    rewrite upsert_loop_skip; [done|]. by rewrite Hf.
  - unfold upsertEpisodes. rewrite Hdoc. simpl. intros d [= <-]. split.
    + rewrite stable_sort_perm. apply elem_of_app. by left.
    + rewrite (Permutation_length (filter_Permutation _ _ _ (stable_sort_perm _ _))).
      rewrite filter_app, (filter_file_fresh (file x)); [|done].
      by rewrite app_nil_r.
Qed.

(** A witness: a catalog holding [X.mp3] as episode 1, and a merge of
    [X.mp3] followed by [Y.mp3]. *)
Definition entry_X : EpisodeYaml := {|
  file := "X.mp3"; title := "t"; description := EmptyString;
  pub_date := "2024-01-01T00:00:00.000Z"; explicit := false; season := 1;
  episode := 1; episode_type := "full" |}%string.

Definition new_entry (f : string) : NewEpisode := {|
  n_file := f; n_title := "t"; n_description := EmptyString;
  n_pub_date := "2024-02-01T00:00:00.000Z"; n_explicit := false;
  n_season := 1; n_episode_type := "full" |}%string.

Lemma upsert_duplicate_skipped_witness :
  upsertEpisodes {| doc_rest := []; doc_episodes := Some [entry_X] |}
    ([] ++ new_entry "X.mp3" :: [new_entry "Y.mp3"])
  = upsertEpisodes {| doc_rest := []; doc_episodes := Some [entry_X] |}
      ([] ++ [new_entry "Y.mp3"]).
Proof.
  apply (upsert_duplicate_skipped _ [entry_X] entry_X); [done|by left|done].
Defined.

End CatalogClaims.

Module MergeClaims.
Import Catalog SortFacts UpsertFacts.

Definition by_pub_time (pub_time : string -> Z) (e : NewEpisode) : Z :=
  pub_time (n_pub_date e).

Lemma merge_general (pub_time : string -> Z) (doc : TemplateYaml)
  (news : list NewEpisode) :
  let es := default [] (doc_episodes doc) in
  let kept := survivors (list_to_set (map file es))
                (stable_sort (by_pub_time pub_time) news) in
  doc_episodes (mergeCatalog pub_time doc news)
  = Some (stable_sort episode (es ++ number_from (existing_max es + 1) kept))
  /\ StronglySorted (le_key (by_pub_time pub_time)) kept.
Proof.
  simpl. split.
  - unfold mergeCatalog, upsertEpisodes. simpl. by rewrite upsert_loop_numbering.
  - apply survivors_sorted, stable_sort_sorted.
Qed.

(** Evaluates closed integer comparisons and sums in the goal. *)
Ltac zcalc :=
  repeat match goal with
  | |- context [(?x <? ?y)%Z] =>
      let v := eval vm_compute in (x <? y)%Z in change (x <? y)%Z with v
  | |- context [(?x + ?y)%Z] =>
      let v := eval vm_compute in (x + y)%Z in change (x + y)%Z with v
  end.

(** C5.  With existing ordinals 1 and 2 (in either order) and two new
    entries whose files are new and distinct, the merged catalog carries
    the ordinals 1, 2, 3, 4 in this order, 3 and 4 go to the two new
    entries, the earlier publication date first; and in general the
    surviving new entries, sorted by publication date, are numbered
    consecutively from [existing_max + 1] (whose value is the maximum of
    the existing ordinals and 0). *)
Theorem merge_numbering (pub_time : string -> Z) (doc : TemplateYaml)
  (e1 e2 : EpisodeYaml) (a b : NewEpisode) :
  doc_episodes doc = Some [e1; e2] ->
  (episode e1 = 1 /\ episode e2 = 2 \/ episode e1 = 2 /\ episode e2 = 1)%Z ->
  n_file a <> file e1 -> n_file a <> file e2 ->
  n_file b <> file e1 -> n_file b <> file e2 -> n_file a <> n_file b ->
  (exists r x y,
      doc_episodes (mergeCatalog pub_time doc [a; b]) = Some r
      /\ map episode r = [1; 2; 3; 4]%Z
      /\ drop 2 r = [with_episode x 3; with_episode y 4]
      /\ (x = a /\ y = b \/ x = b /\ y = a)
      /\ (pub_time (n_pub_date x) <= pub_time (n_pub_date y))%Z)
  /\ (forall (doc' : TemplateYaml) (news : list NewEpisode),
        let es := default [] (doc_episodes doc') in
        let kept := survivors (list_to_set (map file es))
                      (stable_sort (by_pub_time pub_time) news) in
        doc_episodes (mergeCatalog pub_time doc' news)
        = Some (stable_sort episode (es ++ number_from (existing_max es + 1) kept))
        /\ StronglySorted (le_key (by_pub_time pub_time)) kept).
Proof.
  intros Hdoc Hord Ha1 Ha2 Hb1 Hb2 Hab.
  split; [|intros; apply merge_general].
  assert (Hmax : existing_max [e1; e2] = 2%Z)
    by (unfold existing_max; simpl; destruct Hord as [[-> ->]|[-> ->]]; lia).
  unfold mergeCatalog, upsertEpisodes. rewrite Hdoc. simpl default.
  rewrite Hmax. unfold stable_sort at 2. simpl.
  destruct (pub_time (n_pub_date b) <? pub_time (n_pub_date a))%Z eqn:Hba.
  - apply Z.ltb_lt in Hba.
    simpl. rewrite !bool_decide_eq_false_2 by set_solver.
    eexists _, b, a. split; [reflexivity|].
    destruct Hord as [[H1 H2]|[H1 H2]];
      unfold stable_sort; do 5 (cbn; rewrite ?H1, ?H2; zcalc);
      refine (conj eq_refl (conj eq_refl (conj _ _))); [by right|lia|by right|lia].
  - apply Z.ltb_ge in Hba.
    simpl. rewrite !bool_decide_eq_false_2 by set_solver.
    eexists _, a, b. split; [reflexivity|].
    destruct Hord as [[H1 H2]|[H1 H2]];
      unfold stable_sort; do 5 (cbn; rewrite ?H1, ?H2; zcalc);
      refine (conj eq_refl (conj eq_refl (conj _ _))); [by left|lia|by left|lia].
Qed.

Definition old_entry (f : string) (k : Z) : EpisodeYaml := {|
  file := f; title := "t"; description := EmptyString;
  pub_date := "2024-01-01T00:00:00.000Z"; explicit := false; season := 1;
  episode := k; episode_type := "full" |}%string.

Definition fresh_entry (f : string) : NewEpisode := {|
  n_file := f; n_title := "t"; n_description := EmptyString;
  n_pub_date := f; n_explicit := false;
  n_season := 1; n_episode_type := "full" |}%string.

Definition doc12 : TemplateYaml :=
  {| doc_rest := []; doc_episodes := Some [old_entry "E2.mp3" 2; old_entry "E1.mp3" 1] |}%string.

(** A witness: the catalog [2; 1] and two new files. *)
Lemma merge_numbering_witness :
  exists r x y,
    doc_episodes (mergeCatalog (fun s => Z.of_nat (String.length s)) doc12
                    [fresh_entry "A.mp3"; fresh_entry "B.mp3"]) = Some r
    /\ map episode r = [1; 2; 3; 4]%Z
    /\ drop 2 r = [with_episode x 3; with_episode y 4]
    /\ (x = fresh_entry "A.mp3" /\ y = fresh_entry "B.mp3"
        \/ x = fresh_entry "B.mp3" /\ y = fresh_entry "A.mp3")%string
    /\ (Z.of_nat (String.length (n_pub_date x))
        <= Z.of_nat (String.length (n_pub_date y)))%Z.
Proof.
  refine (proj1 (merge_numbering _ doc12 (old_entry "E2.mp3" 2) (old_entry "E1.mp3" 1)
                   (fresh_entry "A.mp3") (fresh_entry "B.mp3") _ _ _ _ _ _ _));
    [reflexivity|right; split; reflexivity|done..].
Defined.

End MergeClaims.

(* ------------------------------------------------------------------ *)
(** ** Artifact names *)

Module NameFacts.
Import Naming.
Local Open Scope string_scope.

Lemma list_ascii_of_string_app (s t : string) :
  list_ascii_of_string (s ++ t)
  = (list_ascii_of_string s ++ list_ascii_of_string t)%list.
Proof. induction s as [|c s IH]; simpl; [done|]. by rewrite IH. Qed.

Lemma string_app_assoc (s t u : string) : s ++ (t ++ u) = (s ++ t) ++ u.
Proof.
  induction s as [|c s IH]; [reflexivity|].
  change (String c (s ++ (t ++ u)) = String c ((s ++ t) ++ u)). by rewrite IH.
Qed.

Lemma to_mp3_mp4 (s : string) : to_mp3 (s ++ ".mp4") = s ++ ".mp3".
Proof.
  unfold to_mp3. rewrite list_ascii_of_string_app. simpl list_ascii_of_string.
  rewrite length_app. simpl length.
  replace (length (list_ascii_of_string s) + 4 - 4)%nat
    with (length (list_ascii_of_string s)) by lia.
  rewrite drop_app_length, take_app_length.
  replace (4 <=? length (list_ascii_of_string s) + 4)%nat with true
    by (symmetry; apply Nat.leb_le; lia).
  simpl. rewrite string_of_list_ascii_of_string. done.
Qed.

Definition last_char (s : string) : option ascii := last (list_ascii_of_string s).

Lemma last_char_app (s t : string) :
  t <> EmptyString -> last_char (s ++ t) = last_char t.
Proof.
  intros Ht. unfold last_char. rewrite list_ascii_of_string_app.
  destruct t; [done|]. simpl. by rewrite last_app_cons.
Qed.

(** An audio name is never a video name. *)
Lemma mp3_ne_mp4 (s t : string) : s ++ ".mp3" <> t ++ ".mp4".
Proof.
  intros H. apply (f_equal last_char) in H.
  rewrite !last_char_app in H by done. discriminate H.
Qed.

Lemma build_mp4 parse_date tz p now :
  exists s, buildFilenameFromPubDate parse_date tz p now = s ++ ".mp4".
Proof.
  unfold buildFilenameFromPubDate.
  eexists. by rewrite string_app_assoc.
Qed.

(** The audio name of a derived file name differs from every derived
    file name. *)
Lemma audio_not_video parse_date tz p now p' now' :
  to_mp3 (buildFilenameFromPubDate parse_date tz p now)
  <> buildFilenameFromPubDate parse_date tz p' now'.
Proof.
  destruct (build_mp4 parse_date tz p now) as [s ->].
  destruct (build_mp4 parse_date tz p' now') as [t ->].
  rewrite to_mp3_mp4. apply mp3_ne_mp4.
Qed.

End NameFacts.

(* ------------------------------------------------------------------ *)
(** ** One iteration of the loop of [main] *)

Module StepFacts.
Import Json Catalog Pipeline NameFacts.

Section Step.
Variable E : Env.
Variable gy : bool.

Definition resolution (ep : EpisodeInput) : Res (option json) :=
  Resolver.extractVideoUrl (env_json_parse E) (env_script_abs_url E)
    (env_script_key_url E) (ep_page ep) (ep_render ep).

Definition audio_of (ep : EpisodeInput) : string := Naming.to_mp3 (filename_of E ep).

Lemma tag_phase_files st ep a : st_files (tag_phase E gy st ep a) = st_files st.
Proof. unfold tag_phase. repeat case_match; done. Qed.

Lemma tag_phase_log st ep a :
  st_log (tag_phase E gy st ep a)
  = st_log st ++ (if bool_decide (a ∈ st_files st) then [EvTag a] else []).
Proof.
  unfold tag_phase. case_bool_decide; [|by rewrite app_nil_r].
  repeat case_match; done.
Qed.

(** Unfolds an iteration into its cases. *)
Ltac step_cases H :=
  unfold process_episode, downloadVideo, extractAudio in H;
  repeat (case_match || case_bool_decide); simplify_eq/=.


(** The only file an iteration removes is the episode's video file, and
    only when its audio file was absent at the start. *)
Lemma step_removes_only_video st ep st' x :
  process_episode E gy st ep = Ret st' ->
  x ∈ st_files st -> x ∉ st_files st' ->
  x = filename_of E ep /\ audio_of ep ∉ st_files st.
Proof.
  intros H Hin Hout. unfold audio_of.
  step_cases H; rewrite ?tag_phase_files in Hout; simpl in *;
    destruct (decide (x = filename_of E ep)); set_solver.
Qed.

(** The files an iteration adds: the video file (download) and the
    audio file (transcode). *)
Lemma step_adds_only_artifacts st ep st' x :
  process_episode E gy st ep = Ret st' ->
  x ∉ st_files st -> x ∈ st_files st' ->
  x = filename_of E ep \/ x = audio_of ep.
Proof.
  intros H Hin Hout. unfold audio_of.
  step_cases H; rewrite ?tag_phase_files in Hout; simpl in *;
    destruct (decide (x = filename_of E ep)); set_solver.
Qed.

End Step.

End StepFacts.

(* ------------------------------------------------------------------ *)
(** ** Whole runs *)

Module RunFacts.
Import Json Catalog Pipeline NameFacts StepFacts.

Lemma audio_ne_video E ep ep' : audio_of E ep <> filename_of E ep'.
Proof. apply audio_not_video. Qed.

Lemma step_unresolved E gy st ep r :
  resolution E ep = Ret r -> truthy_opt r = false ->
  process_episode E gy st ep = Ret st.
Proof. intros H1 H2. unfold process_episode. unfold resolution in H1. by rewrite H1, H2. Qed.

Section Inv.
Variable E : Env.
Variable gy : bool.
Variable P : Files -> Prop.
Hypothesis HP : forall st ep st',
  P (st_files st) -> process_episode E gy st ep = Ret st' -> P (st_files st').

Lemma process_all_inv eps st :
  P (st_files st) -> P (st_files (process_all E gy st eps).1).
Proof.
  revert st. induction eps as [|ep eps IH]; intros st Hst; simpl; [done|].
  destruct (process_episode E gy st ep) eqn:Heq; simpl; eauto.
Qed.

Lemma main_inv template ok w vs :
  P (w_files w) -> P (w_files (o_world (main E gy template ok w vs))).
Proof.
  intros Hw. unfold main. destruct vs as [|ep vs]; [done|].
  match goal with |- context [process_all E gy ?s0 ?l] =>
    pose proof (process_all_inv l s0 Hw) as Hi;
    destruct (process_all E gy s0 l) as [st ab] end.
  simpl in Hi. destruct ab; done.
Qed.

Lemma run_all_inv runs w :
  P (w_files w) -> P (w_files (run_all E gy w runs)).
Proof.
  revert w. induction runs as [|[[t ok] vs] r IH]; intros w Hw; simpl; [done|].
  apply IH, main_inv, Hw.
Qed.

End Inv.

(** An existing audio file is never removed. *)
Lemma step_keeps_audio E gy ep st ep' st' :
  audio_of E ep ∈ st_files st -> process_episode E gy st ep' = Ret st' ->
  audio_of E ep ∈ st_files st'.
Proof.
  intros Ha H. destruct (decide (audio_of E ep ∈ st_files st')) as [|Hn]; [done|].
  destruct (step_removes_only_video E gy st ep' st' _ H Ha Hn) as [Heq _].
  by destruct (audio_ne_video E ep ep').
Qed.

(** A video file next to its audio file is never removed. *)
Lemma step_keeps_pair E gy ep st ep' st' :
  filename_of E ep ∈ st_files st -> audio_of E ep ∈ st_files st ->
  process_episode E gy st ep' = Ret st' ->
  filename_of E ep ∈ st_files st' /\ audio_of E ep ∈ st_files st'.
Proof.
  intros Hv Ha H. split; [|eauto using step_keeps_audio].
  destruct (decide (filename_of E ep ∈ st_files st')) as [|Hn]; [done|].
  destruct (step_removes_only_video E gy st ep' st' _ H Hv Hn) as [Heq Hna].
  unfold audio_of in *. rewrite <- Heq in Hna. contradiction.
Qed.

End RunFacts.

(* ------------------------------------------------------------------ *)
(** ** Resuming, failed downloads and stray videos *)

Module PipelineClaims.
Import Json Catalog Pipeline NameFacts StepFacts RunFacts Samples.

Definition files_state (fs : Files) : State :=
  {| st_files := fs; st_log := []; st_yaml := [] |}.

Lemma sample_video pg dl tr : filename_of env0 (episode pg dl tr) = video_name.
Proof. by vm_compute. Qed.

Lemma sample_audio pg dl tr : audio_of env0 (episode pg dl tr) = audio_name.
Proof. by vm_compute. Qed.

Lemma sample_names_differ : audio_name <> video_name.
Proof. discriminate. Qed.

(** C1 (as amended): for an episode whose page resolves to a media URL,
    whose video file exists and whose audio file does not, the iteration
    downloads nothing: it logs one transcode of the existing video file
    and, when the transcode succeeds, the tag of the audio file; after a
    successful transcode the video file is gone and the audio file
    exists. *)
Theorem resume_transcodes_video E gy st ep u :
  resolution E ep = Ret (Some u) -> truthy u = true ->
  filename_of E ep ∈ st_files st -> audio_of E ep ∉ st_files st ->
  exists st', process_episode E gy st ep = Ret st' /\
    st_log st' = st_log st ++ (EvTranscode (filename_of E ep)
                 :: match ep_transcode ep with
                    | TrOk => [EvTag (audio_of E ep)]
                    | TrFail _ => []
                    end) /\
    (ep_transcode ep = TrOk ->
     (filename_of E ep ∉ st_files st') /\ audio_of E ep ∈ st_files st').
Proof.
  intros Hr Hu Hv Ha. pose proof (audio_ne_video E ep ep) as Hne.
  unfold resolution in Hr. unfold audio_of in *.
  unfold process_episode. rewrite Hr. simpl. rewrite Hu. simpl.
  unfold downloadVideo.
  rewrite bool_decide_false by exact Ha. rewrite bool_decide_true by exact Hv.
  unfold extractAudio. destruct (ep_transcode ep) as [|[]]; simpl.
  - eexists. split; [reflexivity|].
    rewrite tag_phase_log, tag_phase_files. simpl.
    rewrite bool_decide_true by set_solver.
    split; [by rewrite <- app_assoc|]. intros _. set_solver.
  - eexists. split; [reflexivity|]. split; [done|]. discriminate.
  - eexists. split; [reflexivity|]. split; [done|]. discriminate.
Qed.

Lemma resume_transcodes_video_witness :
  exists st', process_episode env0 true (files_state {[video_name]})
                (episode (Some page_video) DlOk TrOk) = Ret st' /\
    st_log st' = [] ++ (EvTranscode video_name :: [EvTag audio_name]) /\
    (TrOk = TrOk -> (video_name ∉ st_files st') /\ audio_name ∈ st_files st').
Proof.
  pose proof (resume_transcodes_video env0 true (files_state {[video_name]})
                (episode (Some page_video) DlOk TrOk) (JStr media_url)
                eq_refl eq_refl) as W.
  rewrite !sample_video, !sample_audio in W.
  apply W; simpl; [set_solver|].
  rewrite elem_of_singleton. exact sample_names_differ.
Defined.

(** C1, counterexample: an episode whose video file exists and whose
    audio file does not, but whose page yields no media URL, is skipped
    by the [if (!videoUrl) continue] guard: no transcode runs and the
    video file stays. *)
Lemma resume_needs_resolved_url :
  filename_of env0 (episode (Some page_blank) DlOk TrOk) ∈ ({[video_name]} : Files) /\
  (audio_of env0 (episode (Some page_blank) DlOk TrOk) ∉ ({[video_name]} : Files)) /\
  resolution env0 (episode (Some page_blank) DlOk TrOk) = Ret None /\
  process_episode env0 true (files_state {[video_name]})
    (episode (Some page_blank) DlOk TrOk) = Ret (files_state {[video_name]}).
Proof.
  rewrite sample_video, sample_audio. split; [set_solver|].
  split; [rewrite elem_of_singleton; exact sample_names_differ|].
  split; reflexivity.
Qed.

(** C7: when the download of an episode fails (an early rejection, such
    as a timeout, or a failure after the file was created), the iteration
    leaves the files of the data directory as they were, with neither the
    video nor the audio file of the episode, logs only the download
    attempt, and queues no catalog entry. *)
Theorem download_failure_leaves_nothing E gy st ep u :
  resolution E ep = Ret (Some u) -> truthy u = true ->
  filename_of E ep ∉ st_files st -> audio_of E ep ∉ st_files st ->
  ep_download ep <> DlOk ->
  exists st', process_episode E gy st ep = Ret st' /\
    st_log st' = st_log st ++ [EvDownload u (filename_of E ep)] /\
    st_files st' = st_files st /\ st_yaml st' = st_yaml st /\
    (filename_of E ep ∉ st_files st') /\ (audio_of E ep ∉ st_files st').
Proof.
  intros Hr Hu Hv Ha Hdl.
  unfold resolution in Hr. unfold audio_of in *.
  unfold process_episode. rewrite Hr. simpl. rewrite Hu. simpl.
  unfold downloadVideo.
  rewrite bool_decide_false by exact Ha. rewrite bool_decide_false by exact Hv.
  destruct (ep_download ep); [done| |]; simpl;
    eexists; (split; [reflexivity|]); unfold tag_phase; simpl;
    (rewrite bool_decide_false by set_solver); simpl;
    (assert (Hfs : st_files st ∖ {[filename_of E ep]} = st_files st
             \/ ({[filename_of E ep]} ∪ st_files st) ∖ {[filename_of E ep]} = st_files st)
       by (first [left | right]; apply leibniz_equiv; set_solver));
    (split; [done|]); set_solver.
Qed.

Lemma download_failure_leaves_nothing_witness :
  exists st', process_episode env0 true (files_state ∅)
                (episode (Some page_video) DlFailPartial TrOk) = Ret st' /\
    st_log st' = [] ++ [EvDownload (JStr media_url) video_name] /\
    st_files st' = ∅ /\ st_yaml st' = [] /\
    (video_name ∉ st_files st') /\ (audio_name ∉ st_files st').
Proof.
  pose proof (download_failure_leaves_nothing env0 true (files_state ∅)
                (episode (Some page_video) DlFailPartial TrOk) (JStr media_url)
                eq_refl eq_refl) as W.
  rewrite !sample_video, !sample_audio in W.
  apply W; simpl; [set_solver|set_solver|discriminate].
Defined.

(** C10: when both the video and the audio file of an episode exist, the
    audio check of [downloadVideo] returns before any download, the
    iteration neither downloads nor transcodes (it at most tags the audio
    file) and changes no file, and both files survive every later run. *)
Theorem stray_video_kept E gy st ep :
  filename_of E ep ∈ st_files st -> audio_of E ep ∈ st_files st ->
  (forall dl u, downloadVideo st dl u (filename_of E ep) = (st, false)) /\
  (forall st', process_episode E gy st ep = Ret st' ->
     st_files st' = st_files st /\
     (st_log st' = st_log st \/ st_log st' = st_log st ++ [EvTag (audio_of E ep)])) /\
  (forall catalog runs,
     let w' := run_all E gy {| w_files := st_files st; w_catalog := catalog |} runs in
     filename_of E ep ∈ w_files w' /\ audio_of E ep ∈ w_files w').
Proof.
  intros Hv Ha.
  assert (Hdl : forall dl u, downloadVideo st dl u (filename_of E ep) = (st, false)).
  { intros dl u. unfold downloadVideo. unfold audio_of in Ha.
    by rewrite bool_decide_true by exact Ha. }
  split; [exact Hdl|]. split.
  - intros st' H. unfold process_episode in H.
    destruct (Resolver.extractVideoUrl _ _ _ _ _) as [r|]; [|discriminate].
    destruct (truthy_opt r); simpl in H; [|by injection H as <-; auto].
    rewrite Hdl in H. injection H as <-.
    rewrite tag_phase_files, tag_phase_log. split; [done|].
    unfold audio_of in Ha. rewrite bool_decide_true by exact Ha. by right.
  - intros catalog runs. simpl.
    apply (run_all_inv E gy (fun fs => filename_of E ep ∈ fs /\ audio_of E ep ∈ fs));
      [|done].
    intros st0 ep' st' [H1 H2] H. eapply step_keeps_pair; eauto.
Qed.

Lemma stray_video_kept_witness :
  (forall dl u, downloadVideo (files_state {[video_name; audio_name]}) dl u video_name
                = (files_state {[video_name; audio_name]}, false)) /\
  (forall st', process_episode env0 true (files_state {[video_name; audio_name]})
                 (episode (Some page_video) DlOk TrOk) = Ret st' ->
     st_files st' = {[video_name; audio_name]} /\
     (st_log st' = [] \/ st_log st' = [] ++ [EvTag audio_name])) /\
  (forall catalog runs,
     let w' := run_all env0 true {| w_files := {[video_name; audio_name]}; w_catalog := catalog |} runs in
     video_name ∈ w_files w' /\ audio_name ∈ w_files w').
Proof.
  pose proof (stray_video_kept env0 true (files_state {[video_name; audio_name]})
                (episode (Some page_video) DlOk TrOk)) as W.
  rewrite !sample_video, !sample_audio in W.
  apply W; simpl; set_solver.
Defined.

End PipelineClaims.

(* ------------------------------------------------------------------ *)
(** ** The resolver *)

Module ResolverClaims.
Import Json Resolver Pipeline StepFacts Samples.

(** The first element of [streams] whose [stream_type] is [ty]. *)
Fixpoint first_of_type (ss : list json) (ty : string) : option json :=
  match ss with
  | [] => None
  | JObj fs :: r =>
      match field fs "stream_type" with
      | Some (JStr t) => if String.eqb t ty then Some (JObj fs) else first_of_type r ty
      | _ => first_of_type r ty
      end
  | _ :: r => first_of_type r ty
  end.

(** The [url] of that element. *)
Definition stream_url (ss : list json) (ty : string) : option json :=
  match first_of_type ss ty with Some (JObj fs) => field fs "url" | _ => None end.

Definition stream (ty : string) (url : option string) : json :=
  JObj (("stream_type", JStr ty)
        :: match url with Some u => [("url", JStr u)] | None => [] end).

Definition metadata (ss : list json) : json := JObj [("streams", JArr ss)].

Definition blob0 : string := "{streams}".

(** [JSON.parse] that understands one blob. *)
Definition parse_as (md : json) (s : string) : option json :=
  if String.eqb s blob0 then Some md else None.

(** An episode page with both a Fusion blob and a static [<video src>]. *)
Definition page_both : Page := {|
  pg_fusion := Some blob0; pg_video_source_src := None;
  pg_video_src := Some "https://cdn.example/markup.mp4";
  pg_scripts := []; pg_data_video_src := None; pg_data_src := None;
  pg_data_url := None |}.

(** [browser.close()] rejects. *)
Definition render_close_fails : Render := {|
  rd_launch_ok := true; rd_goto_ok := true; rd_responses := [];
  rd_eval := Some None; rd_close_ok := false |}.

Definition fusion_mp4 : string := "https://cdn.example/fusion.mp4".
Definition fusion_ts : string := "https://cdn.example/fusion.m3u8".

(** Streams: a progressive file. *)
Definition streams_mp4 : list json := [stream "mp4" (Some fusion_mp4)].
(** Streams: a progressive entry without URL, and a segmented stream. *)
Definition streams_ts : list json := [stream "mp4" None; stream "ts" (Some fusion_ts)].
(** Streams: the first progressive entry has no URL, a later one has. *)
Definition streams_late_mp4 : list json :=
  [stream "mp4" None; stream "mp4" (Some fusion_mp4); stream "ts" (Some fusion_ts)].

Definition no_match : string -> option string := fun _ => None.
Definition no_parse : string -> option json := fun _ => None.

Lemma find_stream_first ss ty :
  JNull ∉ ss -> find_stream ss ty = Ret (first_of_type ss ty).
Proof.
  induction ss as [|s ss IH]; intros Hn; [done|].
  rewrite not_elem_of_cons in Hn. destruct Hn as [Hs Hn].
  destruct s as [| | | | |fs]; simpl; try (by apply IH); [done|].
  destruct (field fs "stream_type") as [[]|]; try by apply IH.
  case_match; [done|]. by apply IH.
Qed.

Lemma first_of_type_obj ss ty s :
  first_of_type ss ty = Some s -> exists fs, s = JObj fs.
Proof.
  induction ss as [|[] ss IH]; simpl; try done.
  repeat case_match; try done. intros [= <-]. eauto.
Qed.

Lemma opt_url_first ss ty : opt_url (first_of_type ss ty) = Ret (stream_url ss ty).
Proof.
  unfold stream_url. destruct (first_of_type ss ty) eqn:E; [|done].
  destruct (first_of_type_obj _ _ _ E) as [fs ->]. done.
Qed.

Lemma get_obj fs k : get (JObj fs) k = Ret (field fs k).
Proof. done. Qed.

(** Given the page, a browser that closes cleanly and no exception in
    [JSON.parse], the resolver returns. *)
Lemma resolver_total_if_fetched jp sa sk pg rd :
  (rd_launch_ok rd = true -> rd_close_ok rd = true) ->
  exists r, extractVideoUrl jp sa sk (Some pg) rd = Ret r.
Proof.
  intros Hc. unfold extractVideoUrl.
  repeat case_match; eauto.
  unfold strategy_render in *. destruct (rd_launch_ok rd); [|done].
  rewrite Hc in *; done.
Qed.

(** C6 (as amended): when the embedded Fusion blob parses to an object
    whose [streams] is an array without a [null] element, the resolver
    returns the [url] of the FIRST mp4-typed stream when that is truthy,
    and otherwise the [url] of the first ts-typed stream when that is
    truthy, whatever the markup holds. *)
Theorem fusion_stream_choice jp sa sk pg rd blob fs ss :
  pg_fusion pg = Some blob -> jp blob = Some (JObj fs) ->
  field fs "streams" = Some (JArr ss) -> JNull ∉ ss ->
  (truthy_opt (stream_url ss "mp4") = true ->
     extractVideoUrl jp sa sk (Some pg) rd = Ret (stream_url ss "mp4")) /\
  (truthy_opt (stream_url ss "mp4") = false ->
   truthy_opt (stream_url ss "ts") = true ->
     extractVideoUrl jp sa sk (Some pg) rd = Ret (stream_url ss "ts")).
Proof.
  intros Hf Hp Hs Hn.
  unfold extractVideoUrl, strategy_fusion. rewrite Hf, Hp.
  unfold fusion_body. rewrite get_obj, Hs.
  rewrite !find_stream_first by exact Hn. rewrite !opt_url_first.
  split.
  - intros H1. rewrite H1. destruct (stream_url ss "mp4"); [done|discriminate].
  - intros H1 H2. rewrite H1, H2.
    destruct (stream_url ss "ts"); [done|discriminate].
Qed.

Lemma fusion_stream_choice_witness :
  extractVideoUrl (parse_as (metadata streams_mp4)) no_match no_match
    (Some page_both) render_off = Ret (Some (JStr fusion_mp4)) /\
  extractVideoUrl (parse_as (metadata streams_ts)) no_match no_match
    (Some page_both) render_off = Ret (Some (JStr fusion_ts)).
Proof.
  split.
  - refine (proj1 (fusion_stream_choice (parse_as (metadata streams_mp4))
                     no_match no_match page_both render_off blob0
                     [("streams", JArr streams_mp4)] streams_mp4
                     eq_refl eq_refl eq_refl _) eq_refl).
    unfold streams_mp4. rewrite list_elem_of_singleton. discriminate.
  - refine (proj2 (fusion_stream_choice (parse_as (metadata streams_ts))
                     no_match no_match page_both render_off blob0
                     [("streams", JArr streams_ts)] streams_ts
                     eq_refl eq_refl eq_refl _) eq_refl eq_refl).
    unfold streams_ts. rewrite !not_elem_of_cons. split; [discriminate|].
    split; [discriminate|]. apply not_elem_of_nil.
Defined.

(** C6, counterexample: the first mp4-typed stream has no [url], a later
    mp4-typed stream has one; [find] stops at the first, so the resolver
    returns the ts stream's URL. *)
Lemma fusion_ts_over_later_mp4 :
  stream "mp4" (Some fusion_mp4) ∈ streams_late_mp4 /\
  extractVideoUrl (parse_as (metadata streams_late_mp4)) no_match no_match
    (Some page_both) render_off = Ret (Some (JStr fusion_ts)).
Proof.
  split; [|reflexivity].
  unfold streams_late_mp4. rewrite elem_of_cons. right. apply elem_of_cons. by left.
Qed.

(** C3, against the code: [fetchPage] rethrows an HTTP error, so
    [extractVideoUrl] throws for that episode, and the exception reaches
    the outer [catch] of [main], which ends the run before the next
    episode is looked at; a rejected [browser.close()] in the [finally]
    of strategy 5 also escapes the resolver. *)
Theorem fetch_failure_aborts_run :
  resolution env0 (episode None DlOk TrOk) = Throw /\
  extractVideoUrl no_parse no_match no_match (Some page_blank) render_close_fails = Throw /\
  main env0 true None true {| w_files := ∅; w_catalog := None |}
    [episode None DlOk TrOk; episode (Some page_video) DlOk TrOk]
  = {| o_world := {| w_files := ∅; w_catalog := None |}; o_log := [];
       o_aborted := true |}.
Proof. split; [reflexivity|]. split; reflexivity. Qed.

End ResolverClaims.

(* ------------------------------------------------------------------ *)
(** ** Derived file names *)

Module NamingClaims.
Import Naming Samples.
Local Open Scope string_scope.

Definition one_day : Z := 86400000%Z.

Definition untitled : string := "Mental Health Mondays".
Definition titled : string := "Mental Health Mondays, Ep. 2".

(** C8 (as amended): the video file name depends only on the publish
    date string (and the time zone of the process) when that string is
    non-empty and parses as a date; the file name of [sanitizeFilename]
    depends only on the title when the title carries an episode number.
    In both cases the time of the run does not matter. *)
Theorem filename_determined_by_identity parse_date tz p now now' title tnow tnow' :
  (p <> EmptyString -> is_Some (parse_date p) ->
   buildFilenameFromPubDate parse_date tz (Some p) now
   = buildFilenameFromPubDate parse_date tz (Some p) now') /\
  (is_Some (ep_search (list_ascii_of_string title)) ->
   sanitizeFilename title tnow = sanitizeFilename title tnow').
Proof.
  split.
  - intros Hp [t Ht]. unfold buildFilenameFromPubDate.
    destruct (String.eqb_spec p EmptyString) as [->|_]; [done|].
    by rewrite Ht.
  - intros [ds Hds]. unfold sanitizeFilename. by rewrite Hds.
Qed.

Lemma filename_determined_by_identity_witness :
  buildFilenameFromPubDate (Pipeline.env_parse_date env0) (Pipeline.env_tz_offset env0)
    (Some "2024-01-01") 0 =
  buildFilenameFromPubDate (Pipeline.env_parse_date env0) (Pipeline.env_tz_offset env0)
    (Some "2024-01-01") one_day /\
  sanitizeFilename titled 0 = sanitizeFilename titled one_day.
Proof.
  destruct (filename_determined_by_identity (Pipeline.env_parse_date env0)
              (Pipeline.env_tz_offset env0) "2024-01-01" 0 one_day titled 0 one_day)
    as [H1 H2].
  split; [apply H1; [discriminate|by eexists]|apply H2; by eexists].
Defined.

(** C8, counterexample: without a publish date (and for a title without
    an episode number) the name is built from the date of the run, so two
    runs on different days derive different names for the same episode. *)
Lemma filename_depends_on_run_date :
  buildFilenameFromPubDate (Pipeline.env_parse_date env0) (Pipeline.env_tz_offset env0)
    None 0
  <> buildFilenameFromPubDate (Pipeline.env_parse_date env0) (Pipeline.env_tz_offset env0)
    None one_day /\
  sanitizeFilename untitled 0 <> sanitizeFilename untitled one_day.
Proof. split; vm_compute; discriminate. Qed.

End NamingClaims.

(* ------------------------------------------------------------------ *)
(** ** Discovery *)

Module DiscoveryClaims.
Import Discovery.
Local Open Scope string_scope.

Definition ep_slash : string := "https://www.wtap.com/2024/01/01/slug/".
Definition ep_bare : string := "https://www.wtap.com/2024/01/01/slug".

Definition url_slash : Url :=
  {| u_href := ep_slash; u_pathname := "/2024/01/01/slug/" |}.
Definition url_bare : Url :=
  {| u_href := ep_bare; u_pathname := "/2024/01/01/slug" |}.

(** [new URL] on the two links. *)
Definition url_parse0 (s : string) (base : option string) : option Url :=
  if String.eqb s ep_slash then Some url_slash
  else if String.eqb s ep_bare then Some url_bare
  else None.

Definition card (h : string) : Card :=
  {| card_href := Some h; card_heading := "Ep. 1"; card_link_text := EmptyString |}.

Definition listing_twice : Listing :=
  {| l_cards := [card ep_slash; card ep_bare]; l_anchors := [] |}.

Lemma card_step_accepts up videos c h u :
  trimmed_href (card_href c) = Some h -> starts_with_http h = true ->
  up h None = Some u ->
  String.eqb (ensure_slash (u_href u)) SEARCH_URL = false ->
  String.eqb (u_pathname u) "/homepage" = false ->
  date_path (u_pathname u) = true ->
  String.eqb (ensure_slash h) SEARCH_URL = false ->
  card_step up videos c
  = Ret (push_new videos (first_nonempty (JsStr.trim (card_heading c))
                           (JsStr.trim (card_link_text c)) DEFAULT_TITLE) h).
Proof.
  intros Hh Hs Hu H1 H2 H3 H4.
  unfold card_step, isEpisodeUrl, parse_href, absolute.
  rewrite Hh, Hs, Hu, H1, H2, H3. simpl. by rewrite H4.
Qed.

(** C9, against the code: two cards linking to the same episode page,
    with and without the trailing slash, give two entries, because
    [searchForVideos] compares URLs with [===]; the [/\/?$/] normalisation
    it applies for the comparison with the listing URL is not used
    here. *)
Theorem trailing_slash_duplicates up :
  up ep_slash None = Some url_slash -> up ep_bare None = Some url_bare ->
  ensure_slash ep_slash = ensure_slash ep_bare /\
  searchForVideos up listing_twice
  = Ret [{| vi_title := "Ep. 1"; vi_url := ep_slash |};
         {| vi_title := "Ep. 1"; vi_url := ep_bare |}].
Proof.
  intros H1 H2. split; [reflexivity|].
  unfold searchForVideos, listing_twice. cbn [each l_cards].
  rewrite (card_step_accepts up [] (card ep_slash) ep_slash _ eq_refl eq_refl H1
             eq_refl eq_refl eq_refl eq_refl).
  cbn iota.
  rewrite (card_step_accepts up _ (card ep_bare) ep_bare _ eq_refl eq_refl H2
             eq_refl eq_refl eq_refl eq_refl).
  reflexivity.
Qed.

Lemma trailing_slash_duplicates_witness :
  ensure_slash ep_slash = ensure_slash ep_bare /\
  searchForVideos url_parse0 listing_twice
  = Ret [{| vi_title := "Ep. 1"; vi_url := ep_slash |};
         {| vi_title := "Ep. 1"; vi_url := ep_bare |}].
Proof. apply trailing_slash_duplicates; reflexivity. Defined.

End DiscoveryClaims.

(* ------------------------------------------------------------------ *)
(** ** Catalog merge is idempotent *)

Module MergeIdem.
Import Catalog SortFacts UpsertFacts.

Lemma in_files (l : list EpisodeYaml) x :
  x ∈ (list_to_set (map file l) : gset string) <-> In x (map file l).
Proof. by rewrite elem_of_list_to_set, list_elem_of_In. Qed.

Lemma upsert_loop_covers F next news y :
  y ∈ news -> n_file y ∈ F ∪ list_to_set (map file (upsert_loop F next news)).
Proof.
  revert F next. induction news as [|e r IH]; intros F next Hy; [set_solver|].
  simpl. apply elem_of_cons in Hy as [->|Hy]; case_bool_decide as Hin.
  - set_solver.
  - simpl. set_solver.
  - by apply IH.
  - simpl. specialize (IH ({[n_file e]} ∪ F) (next + 1)%Z Hy). set_solver.
Qed.

Lemma upsert_loop_known F next news :
  (forall y, y ∈ news -> n_file y ∈ F) -> upsert_loop F next news = [].
Proof.
  revert F next. induction news as [|e r IH]; intros F next Hk; [done|].
  simpl. rewrite bool_decide_true by (apply Hk; by left).
  apply IH. intros y Hy. apply Hk. by right.
Qed.

Lemma upsert_idem D news :
  upsertEpisodes (upsertEpisodes D news) news = upsertEpisodes D news.
Proof.
  unfold upsertEpisodes at 1 3. simpl.
  set (es := default [] (doc_episodes D)).
  set (L := upsert_loop (list_to_set (map file es)) (existing_max es + 1)%Z news).
  rewrite upsert_loop_known.
  - rewrite app_nil_r, stable_sort_id; [done|]. apply stable_sort_sorted.
  - intros y Hy. pose proof (upsert_loop_covers (list_to_set (map file es))
                               (existing_max es + 1)%Z news y Hy) as Hc.
    fold L in Hc. apply in_files.
    eapply Permutation_in; [apply Permutation_map; symmetry; apply stable_sort_perm|].
    rewrite map_app. apply in_or_app.
    apply elem_of_union in Hc as [Hc|Hc]; apply in_files in Hc; auto.
Qed.

Lemma merge_idem pt D news :
  mergeCatalog pt (mergeCatalog pt D news) news = mergeCatalog pt D news.
Proof. unfold mergeCatalog. apply upsert_idem. Qed.

End MergeIdem.

(* ------------------------------------------------------------------ *)
(** ** A second run *)

Module RerunFacts.
Import Json Catalog Pipeline NameFacts StepFacts RunFacts MergeIdem.

Definition opt_to_list {A} (o : option A) : list A :=
  match o with Some x => [x] | None => [] end.

Definition same_source (e1 e2 : EpisodeInput) : Prop :=
  ep_video e1 = ep_video e2 /\ ep_page e1 = ep_page e2 /\
  ep_render e1 = ep_render e2 /\ ep_meta e1 = ep_meta e2.

Definition completes (e : EpisodeInput) : Prop :=
  ep_download e = DlOk /\ ep_transcode e = TrOk.

Definition is_tag (ev : Event) : Prop := exists a, ev = EvTag a.

Section Rerun.
Variable E : Env.
Variable gy : bool.

Definition resolved (e : EpisodeInput) : bool :=
  match resolution E e with Ret r => truthy_opt r | Throw => false end.

Definition dated (e : EpisodeInput) : Prop :=
  exists p t, m_pubDate (ep_meta e) = Some p /\ p <> EmptyString /\
              env_parse_date E p = Some t.

(** The catalog entry an iteration queues when the audio file exists. *)
Definition contrib (e : EpisodeInput) : list NewEpisode :=
  if resolved e && gy then opt_to_list (yaml_entry E e (audio_of E e)) else [].

Lemma tag_phase_yaml st e a :
  st_yaml (tag_phase E gy st e a)
  = st_yaml st ++ (if bool_decide (a ∈ st_files st) && gy
                   then opt_to_list (yaml_entry E e a) else []).
Proof.
  unfold tag_phase. case_bool_decide; simpl; [|by rewrite app_nil_r].
  destruct gy; simpl; [|by rewrite app_nil_r].
  destruct (yaml_entry E e a); simpl; [done|by rewrite app_nil_r].
Qed.

Lemma first_run_step st e :
  completes e -> resolution E e <> Throw ->
  exists st', process_episode E gy st e = Ret st' /\
    st_yaml st' = st_yaml st ++ contrib e /\
    (resolved e = true -> audio_of E e ∈ st_files st').
Proof.
  intros [Hd Ht] Hnt. pose proof (audio_ne_video E e e) as Hne.
  unfold contrib, resolved, audio_of in *. unfold resolution in *.
  unfold process_episode.
  destruct (Resolver.extractVideoUrl _ _ _ _ _) as [r|]; [|done].
  destruct (truthy_opt r) eqn:Hr; simpl.
  2: { eexists; split; [done|]. split; [by rewrite app_nil_r|done]. }
  unfold downloadVideo. case_bool_decide as Ha.
  - simpl. eexists; split; [done|].
    rewrite tag_phase_yaml, tag_phase_files. rewrite bool_decide_true by done.
    done.
  - case_bool_decide as Hv.
    + unfold extractAudio. rewrite Ht. simpl. eexists; split; [done|].
      rewrite tag_phase_yaml, tag_phase_files. simpl.
      rewrite bool_decide_true by set_solver. split; [done|set_solver].
    + rewrite Hd. simpl. unfold extractAudio. rewrite Ht. simpl.
      eexists; split; [done|].
      rewrite tag_phase_yaml, tag_phase_files. simpl.
      rewrite bool_decide_true by set_solver. split; [done|set_solver].
Qed.

Lemma first_run_all vs st st' :
  Forall completes vs -> process_all E gy st vs = (st', false) ->
  st_yaml st' = st_yaml st ++ flat_map contrib vs /\
  Forall (fun e => resolution E e <> Throw /\
                   (resolved e = true -> audio_of E e ∈ st_files st')) vs.
Proof.
  revert st. induction vs as [|e vs IH]; intros st Hc Hp; simpl in Hp.
  - injection Hp as <-. by rewrite app_nil_r.
  - inversion Hc as [|? ? He Hvs]; subst.
    destruct (process_episode E gy st e) as [s1|] eqn:Hs; [|discriminate].
    assert (Hnt : resolution E e <> Throw).
    { intros Hr. unfold process_episode in Hs. unfold resolution in Hr.
      rewrite Hr in Hs. discriminate. }
    destruct (first_run_step st e He Hnt) as (s1' & Hs1 & Hy & Ha).
    rewrite Hs in Hs1. injection Hs1 as <-.
    destruct (IH s1 Hvs Hp) as [Hy' Hall].
    split; [by rewrite Hy', Hy, <- app_assoc|].
    constructor; [|done]. split; [done|]. intros Hres.
    pose proof (process_all_inv E gy (fun fs => audio_of E e ∈ fs)
                  (fun st0 ep st0' H1 H2 => step_keeps_audio E gy e st0 ep st0' H1 H2)
                  vs s1 (Ha Hres)) as Hk.
    rewrite Hp in Hk. exact Hk.
Qed.

Lemma second_run_step st e :
  resolution E e <> Throw -> (resolved e = true -> audio_of E e ∈ st_files st) ->
  exists st', process_episode E gy st e = Ret st' /\ st_files st' = st_files st /\
    st_yaml st' = st_yaml st ++ contrib e /\
    st_log st' = st_log st ++ (if resolved e then [EvTag (audio_of E e)] else []).
Proof.
  intros Hnt Ha. unfold contrib, resolved, audio_of in *. unfold resolution in *.
  unfold process_episode.
  destruct (Resolver.extractVideoUrl _ _ _ _ _) as [r|]; [|done].
  destruct (truthy_opt r); simpl.
  - specialize (Ha eq_refl). unfold downloadVideo.
    rewrite bool_decide_true by done. simpl. eexists; split; [done|].
    rewrite tag_phase_files, tag_phase_yaml, tag_phase_log.
    rewrite !bool_decide_true by done. done.
  - eexists; split; [done|]. rewrite !app_nil_r. done.
Qed.

Lemma second_run_all vs st (F : Files) :
  st_files st = F ->
  Forall (fun e => resolution E e <> Throw /\
                   (resolved e = true -> audio_of E e ∈ F)) vs ->
  exists st', process_all E gy st vs = (st', false) /\ st_files st' = F /\
    st_yaml st' = st_yaml st ++ flat_map contrib vs /\
    exists tags, st_log st' = st_log st ++ tags /\ Forall is_tag tags.
Proof.
  revert st. induction vs as [|e vs IH]; intros st HF Hall; simpl.
  - exists st. rewrite app_nil_r. split_and!; try done.
    exists []. rewrite app_nil_r. done.
  - inversion Hall as [|? ? [Hnt Ha] Hvs]; subst.
    destruct (second_run_step st e Hnt Ha) as (s1 & Hs & Hf & Hy & Hl). rewrite Hs.
    destruct (IH s1) as (s2 & Hp & Hf2 & Hy2 & tags & Hl2 & Ht); [congruence|done|].
    exists s2. split_and!; [done|done|by rewrite Hy2, Hy, app_assoc|].
    exists ((if resolved e then [EvTag (audio_of E e)] else []) ++ tags).
    rewrite Hl2, Hl, app_assoc. split; [done|].
    apply Forall_app. split; [|done].
    destruct (resolved e); repeat constructor. eexists; done.
Qed.

Lemma same_resolution e1 e2 :
  same_source e1 e2 -> resolution E e1 = resolution E e2.
Proof. intros (_ & Hp & Hr & _). unfold resolution. by rewrite Hp, Hr. Qed.

Lemma same_resolved e1 e2 : same_source e1 e2 -> resolved e1 = resolved e2.
Proof. intros H. unfold resolved. by rewrite (same_resolution e1 e2 H). Qed.

Lemma dated_filename e1 e2 :
  same_source e1 e2 -> dated e1 -> filename_of E e1 = filename_of E e2.
Proof.
  intros (_ & _ & _ & Hm) (p & t & Hp & Hne & Ht). unfold filename_of.
  rewrite <- Hm, Hp. unfold Naming.buildFilenameFromPubDate.
  destruct (String.eqb_spec p EmptyString); [done|]. by rewrite Ht.
Qed.

Lemma dated_contrib e1 e2 :
  same_source e1 e2 -> dated e1 -> contrib e1 = contrib e2.
Proof.
  intros Hs Hd. unfold contrib, audio_of.
  rewrite (same_resolved e1 e2 Hs), (dated_filename e1 e2 Hs Hd).
  destruct Hs as (_ & _ & _ & Hm), Hd as (p & t & Hp & Hne & Ht).
  unfold yaml_entry. rewrite <- Hm, Hp.
  destruct (String.eqb_spec p EmptyString); done.
Qed.

Lemma transfer_all vs1 vs2 (F : Files) :
  Forall2 same_source vs1 vs2 -> Forall dated vs1 ->
  Forall (fun e => resolution E e <> Throw /\
                   (resolved e = true -> audio_of E e ∈ F)) vs1 ->
  flat_map contrib vs1 = flat_map contrib vs2 /\
  Forall (fun e => resolution E e <> Throw /\
                   (resolved e = true -> audio_of E e ∈ F)) vs2.
Proof.
  induction 1 as [|e1 e2 r1 r2 Hs Hr IH]; intros Hd Hall; [done|].
  inversion Hd as [|? ? Hd1 Hdr]; inversion Hall as [|? ? [Hnt Ha] Har]; subst.
  destruct (IH Hdr Har) as [Hc Hall2]. simpl.
  rewrite (dated_contrib e1 e2 Hs Hd1), Hc. split; [done|].
  constructor; [|done]. unfold audio_of.
  rewrite <- (same_resolution e1 e2 Hs), <- (same_resolved e1 e2 Hs),
    <- (dated_filename e1 e2 Hs Hd1). done.
Qed.

End Rerun.
End RerunFacts.

Module RerunClaims.
Import Json Catalog Pipeline StepFacts MergeIdem RerunFacts Samples.

Definition world0 : World := {| w_files := ∅; w_catalog := None |}.

(** The metadata of an article without a publish date. *)
Definition meta_undated : ArticleMeta :=
  {| m_title := Some "Ep"; m_description := None; m_pubDate := None |}.

(** The same undated episode, processed at the instant [now]. *)
Definition episode_at (now : Z) : EpisodeInput :=
  {| ep_video := video0; ep_page := Some page_video; ep_render := render_off;
     ep_meta := meta_undated; ep_now := now; ep_yaml_now := now;
     ep_download := DlOk; ep_transcode := TrOk |}.

Definition day1 : Z := (day0 + 86400000)%Z.

Definition video_day1 : string := "Mental-Health-Mondays-2024-01-02.mp4".
Definition audio_day1 : string := "Mental-Health-Mondays-2024-01-02.mp3".

(** First run of the witness: everything succeeds; second run: the
    download and the transcode would fail if they were attempted. *)
Definition run1_eps : list EpisodeInput := [episode (Some page_video) DlOk TrOk].
Definition run2_eps : list EpisodeInput := [episode (Some page_video) DlFailEarly (TrFail false)].

(** C2 (as amended): take a first run that completes (every download and
    transcode it attempts succeeds, and nothing aborts it) and writes its
    catalog, and every episode has a non-empty publish date that parses.
    A second run over the same episodes (same article, page, browser
    behaviour and metadata), at any later time and whatever the network
    would do, does not abort, logs nothing but tags (no download, no
    transcode), and leaves the files and the catalog exactly as the first
    run left them (the merge adds no entry). *)
Theorem second_run_idle E gy template write_ok2 w vs1 vs2 :
  Forall2 same_source vs1 vs2 -> Forall (dated E) vs1 -> Forall completes vs1 ->
  o_aborted (main E gy template true w vs1) = false ->
  o_aborted (main E gy template write_ok2 (o_world (main E gy template true w vs1)) vs2)
    = false /\
  Forall is_tag
    (o_log (main E gy template write_ok2 (o_world (main E gy template true w vs1)) vs2)) /\
  o_world (main E gy template write_ok2 (o_world (main E gy template true w vs1)) vs2)
    = o_world (main E gy template true w vs1).
Proof.
  intros Hs Hd Hc Hab.
  destruct Hs as [|e1 e2 vs1' vs2' He Hs'].
  { simpl. split_and!; done. }
  remember (main E gy template true w (e1 :: vs1')) as o1 eqn:Ho1.
  unfold main in Ho1.
  destruct (process_all E gy _ (e1 :: vs1')) as [s1 ab] eqn:Hp1.
  destruct ab; [by subst o1|]. subst o1.
  destruct (first_run_all E gy _ _ _ Hc Hp1) as [Hy1 Hall1].
  destruct (transfer_all E gy (e1 :: vs1') (e2 :: vs2') (st_files s1)
              ltac:(by constructor) Hd Hall1) as [Hcm Hall2].
  destruct (second_run_all E gy (e2 :: vs2')
              {| st_files := st_files s1; st_log := []; st_yaml := [] |}
              (st_files s1) eq_refl Hall2)
    as (s2 & Hp2 & Hf2 & Hy2 & tags & Hl2 & Ht).
  unfold main. cbn -[process_all]. rewrite Hp2. cbn -[process_all] in *.
  rewrite Hl2, Hf2, Hy2, <- Hcm, <- Hy1.
  split_and!; [done|done|].
  f_equal. destruct (gy && negb (bool_decide (st_yaml s1 = []))); [|done].
  destruct write_ok2; [|done]. unfold read_catalog. simpl.
  by rewrite merge_idem.
Qed.
Lemma second_run_idle_witness :
  o_aborted (main env0 true None true world0 run1_eps) = false /\
  o_aborted (main env0 true None true (o_world (main env0 true None true world0 run1_eps))
               run2_eps) = false /\
  Forall is_tag
    (o_log (main env0 true None true (o_world (main env0 true None true world0 run1_eps))
              run2_eps)) /\
  o_world (main env0 true None true (o_world (main env0 true None true world0 run1_eps))
             run2_eps)
  = o_world (main env0 true None true world0 run1_eps).
Proof.
  split; [vm_compute; reflexivity|].
  apply second_run_idle.
  - constructor; [split_and!; reflexivity|constructor].
  - constructor; [|constructor].
    exists "2024-01-01", day0. split_and!; [reflexivity|discriminate|reflexivity].
  - constructor; [split; reflexivity|constructor].
  - vm_compute. reflexivity.
Defined.

(** C2, counterexample: for an episode without a publish date the file
    name comes from the date of the run; a second run on the next day
    downloads and transcodes the episode again. *)
Lemma second_run_next_day_downloads :
  o_aborted (main env0 true None true world0 [episode_at day0]) = false /\
  o_log (main env0 true None true (o_world (main env0 true None true world0 [episode_at day0]))
           [episode_at day1])
  = [EvDownload (JStr media_url) video_day1; EvTranscode video_day1; EvTag audio_day1].
Proof. split; vm_compute; reflexivity. Qed.

End RerunClaims.

(* ================================================================== *)
(** * Further properties of the code *)

(* ------------------------------------------------------------------ *)

Module ExtraCatalog.
Import Catalog SortFacts UpsertFacts.

(** [Array.isArray(doc.episodes) ? [...doc.episodes] : []]. *)
Definition episodes_of (doc : TemplateYaml) : list EpisodeYaml :=
  default [] (doc_episodes doc).

(** A catalog with one entry, and new entries for a given file. *)
Definition catalog1 : TemplateYaml := {|
  doc_rest := [("name", "Mental Health Mondays")];
  doc_episodes := Some [{|
    file := "Mental-Health-Mondays-2024-01-01.mp3"; title := "t";
    description := EmptyString; pub_date := "2024-01-01T00:00:00.000Z";
    explicit := false; season := 1; episode := 1; episode_type := "full" |}] |}.

Definition entry (f : string) : NewEpisode := {|
  n_file := f; n_title := "t"; n_description := EmptyString;
  n_pub_date := "2024-01-08T00:00:00.000Z"; n_explicit := false;
  n_season := 1; n_episode_type := "full" |}.




Lemma upsert_loop_shape F next news e :
  e ∈ upsert_loop F next news ->
  (next <= episode e)%Z /\ exists ep, ep ∈ news /\ e = with_episode ep (episode e).
Proof.
  revert F next. induction news as [|ep r IH]; intros F next He; simpl in He;
    [by apply not_elem_of_nil in He|].
  case_bool_decide.
  - destruct (IH _ _ He) as [Hk [ep' [Hin Heq]]].
    split; [done|]. exists ep'. split; [by right|done].
  - apply elem_of_cons in He as [->|He].
    + split; [simpl; lia|]. exists ep. split; [left|done].
    + destruct (IH _ _ He) as [Hk [ep' [Hin Heq]]].
      split; [lia|]. exists ep'. split; [by right|done].
Qed.

Lemma upsert_loop_files F next news :
  list_to_set (map file (upsert_loop F next news)) ∪ F
  = F ∪ (list_to_set (map n_file news) : gset string).
Proof.
  revert F next. induction news as [|ep r IH]; intros F next; simpl.
  - set_solver.
  - case_bool_decide as Hin.
    + rewrite IH. set_solver.
    + simpl.
      specialize (IH ({[n_file ep]} ∪ F) (next + 1)%Z).
      revert IH.
      generalize (list_to_set (map file (upsert_loop ({[n_file ep]} ∪ F) (next + 1) r))
                  : gset string) as A.
      generalize (list_to_set (map n_file r) : gset string) as B.
      intros B A IH.
      rewrite (union_assoc_L F), (union_comm_L F {[n_file ep]}), <- IH. set_solver.
Qed.

Lemma upsert_loop_nodup_files F next news :
  NoDup (map file (upsert_loop F next news)).
Proof.
  revert F next. induction news as [|ep r IH]; intros F next; simpl;
    [constructor|].
  case_bool_decide; [apply IH|]. simpl. constructor; [|apply IH].
  intros Hin. apply list_elem_of_fmap in Hin as [e [He Hm]].
  apply upsert_loop_fresh in Hm. simpl in He. set_solver.
Qed.


Lemma upsert_episodes_perm doc news :
  episodes_of (upsertEpisodes doc news)
  ≡ₚ episodes_of doc
     ++ upsert_loop (list_to_set (map file (episodes_of doc)))
          (existing_max (episodes_of doc) + 1)%Z news.
Proof. unfold upsertEpisodes, episodes_of at 1. simpl. apply stable_sort_perm. Qed.

(** [upsertEpisodes] keeps the other keys of the document and every
    existing entry; every other entry of the result is one of the new
    entries with its number added; the episodes are sorted by number. *)
Theorem upsert_keeps_and_sorts doc news :
  doc_rest (upsertEpisodes doc news) = doc_rest doc /\
  is_Some (doc_episodes (upsertEpisodes doc news)) /\
  StronglySorted (le_key episode) (episodes_of (upsertEpisodes doc news)) /\
  (forall e, e ∈ episodes_of doc -> e ∈ episodes_of (upsertEpisodes doc news)) /\
  (forall e, e ∈ episodes_of (upsertEpisodes doc news) ->
     e ∈ episodes_of doc \/ exists ep, ep ∈ news /\ e = with_episode ep (episode e)).
Proof.
  split_and!; [done|by eexists|apply stable_sort_sorted| |].
  - intros e He. rewrite upsert_episodes_perm. set_solver.
  - intros e He. rewrite upsert_episodes_perm, elem_of_app in He.
    destruct He as [He|He]; [by left|right].
    by apply upsert_loop_shape in He as [_ ?].
Qed.

(** The files of the result are the files of the catalog and those of the
    new entries: no new entry is lost, none is invented. *)
Theorem upsert_files doc news :
  (list_to_set (map file (episodes_of (upsertEpisodes doc news))) : gset string)
  = list_to_set (map file (episodes_of doc)) ∪ list_to_set (map n_file news).
Proof.
  rewrite (list_to_set_perm_L _ _ (Permutation_map file (upsert_episodes_perm doc news))).
  rewrite map_app, list_to_set_app_L.
  rewrite (union_comm_L (list_to_set (map file (episodes_of doc)))).
  apply upsert_loop_files.
Qed.

(** A catalog without duplicate files stays without duplicate files,
    whatever the new entries (even with duplicates among them). *)
Theorem upsert_files_unique doc news :
  NoDup (map file (episodes_of doc)) ->
  NoDup (map file (episodes_of (upsertEpisodes doc news))).
Proof.
  intros Hnd. rewrite (Permutation_map file (upsert_episodes_perm doc news)), map_app.
  apply NoDup_app. split_and!; [done| |apply upsert_loop_nodup_files].
  intros x Hx Hy. apply list_elem_of_fmap in Hy as [e [-> He]].
  apply upsert_loop_fresh in He. apply He. by apply elem_of_list_to_set.
Qed.

Lemma upsert_files_unique_witness :
  NoDup (map file (episodes_of (upsertEpisodes catalog1 [entry "a.mp3"; entry "a.mp3"]))).
Proof. apply upsert_files_unique. vm_compute. repeat constructor. set_solver. Defined.




Lemma number_from_sorted k l : StronglySorted (le_key episode) (number_from k l).
Proof.
  revert k. induction l as [|ep r IH]; intros k; simpl; constructor; [apply IH|].
  apply Forall_forall. intros e He. unfold le_key. simpl.
  cut (forall j, (k < j)%Z -> e ∈ number_from j r -> (k <= episode e)%Z);
    [intros Hc; apply (Hc (k + 1)%Z); [lia|done]|].
  clear IH He. induction r as [|x r IH]; intros j Hj He; simpl in He;
    [by apply not_elem_of_nil in He|].
  apply elem_of_cons in He as [->|He]; [simpl; lia|].
  apply (IH (j + 1)%Z); [lia|done].
Qed.

End ExtraCatalog.

Module ExtraYaml.
Import Catalog SortFacts UpsertFacts YamlIO.

(** When the catalog file is empty ([parseYAML] gives [null]), the
    template is not read and the document is [{}]; when neither file can
    be read and parsed, it is [{ episodes: [] }].  In both cases the
    merged catalog has no other key, and its episodes are the new entries
    without repeated files, numbered 1, 2, ... in their order. *)
Theorem empty_catalog_starts_fresh yaml_parse out template news :
  read_attempt yaml_parse out = Some empty_doc
  \/ read_attempt yaml_parse out = None
     /\ (read_attempt yaml_parse template = None
         \/ read_attempt yaml_parse template = Some empty_doc) ->
  upsertEpisodes (readYamlTemplateOrExisting yaml_parse out template) news
  = {| doc_rest := []; doc_episodes := Some (upsert_loop ∅ 1%Z news) |}.
Proof.
  intros H.
  assert (Hd : readYamlTemplateOrExisting yaml_parse out template = empty_doc
            \/ readYamlTemplateOrExisting yaml_parse out template
               = {| doc_rest := []; doc_episodes := Some [] |}).
  { unfold readYamlTemplateOrExisting.
    destruct H as [->|[-> [->| ->]]]; auto. }
  assert (Hs : stable_sort episode (upsert_loop ∅ 1%Z news) = upsert_loop ∅ 1%Z news).
  { apply stable_sort_id. rewrite upsert_loop_numbering. apply ExtraCatalog.number_from_sorted. }
  destruct Hd as [-> | ->]; unfold upsertEpisodes; simpl;
    change (existing_max [] + 1)%Z with 1%Z; by rewrite Hs.
Qed.

Lemma empty_catalog_starts_fresh_witness :
  upsertEpisodes
    (readYamlTemplateOrExisting (fun _ => Some PNull) (Some EmptyString) None)
    [ExtraCatalog.entry "a.mp3"; ExtraCatalog.entry "a.mp3"]
  = {| doc_rest := []; doc_episodes :=
         Some (upsert_loop ∅ 1%Z [ExtraCatalog.entry "a.mp3"; ExtraCatalog.entry "a.mp3"]) |}.
Proof. apply empty_catalog_starts_fresh. left. reflexivity. Defined.

End ExtraYaml.

(* ------------------------------------------------------------------ *)

Module ExtraDiscovery.
Import Discovery.

Section Listing.
Variable url_parse : string -> option string -> option Url.

(** What the scraper guarantees of each entry it returns: a non-empty
    title, and a URL that [absolute] made of a link [isEpisodeUrl]
    accepted. *)
Definition good_entry (v : VideoInfo) : Prop :=
  vi_title v <> EmptyString /\
  exists h, isEpisodeUrl url_parse h = true /\ absolute url_parse h = Ret (vi_url v).

Definition good_list (vs : list VideoInfo) : Prop :=
  NoDup (map vi_url vs) /\ Forall good_entry vs.

Lemma accepted_absolute h :
  isEpisodeUrl url_parse h = true -> exists url, absolute url_parse h = Ret url.
Proof.
  unfold isEpisodeUrl, parse_href, absolute.
  destruct (starts_with_http h); [by eexists|].
  destruct (url_parse h (Some SITE)); [by eexists|discriminate].
Qed.

Lemma first_nonempty_ne a b : first_nonempty a b DEFAULT_TITLE <> EmptyString.
Proof.
  unfold first_nonempty.
  destruct (String.eqb_spec a EmptyString); [|done].
  destruct (String.eqb_spec b EmptyString); [discriminate|done].
Qed.

Lemma push_new_good vs t url h :
  good_list vs -> t <> EmptyString -> isEpisodeUrl url_parse h = true ->
  absolute url_parse h = Ret url -> good_list (push_new vs t url).
Proof.
  intros [Hnd Hf] Ht Hh Ha. unfold push_new.
  destruct (existsb (fun v => String.eqb (vi_url v) url) vs) eqn:He; [done|].
  split.
  - rewrite map_app. apply NoDup_app. split_and!; [done| |repeat constructor; set_solver].
    intros x Hx Hy. simpl in Hy. apply list_elem_of_singleton in Hy as ->.
    apply list_elem_of_fmap in Hx as [v [Hv Hin]].
    apply list_elem_of_In in Hin.
    assert (existsb (fun v => String.eqb (vi_url v) url) vs = true) as Hc.
    { apply existsb_exists. exists v. split; [done|]. by apply String.eqb_eq. }
    congruence.
  - apply Forall_app. split; [done|]. constructor; [|constructor].
    split; [done|]. by exists h.
Qed.

Lemma card_step_good vs c :
  good_list vs -> exists vs', card_step url_parse vs c = Ret vs' /\ good_list vs'.
Proof.
  intros Hg. unfold card_step.
  destruct (trimmed_href (card_href c)) as [h|]; [|by eexists].
  destruct (isEpisodeUrl url_parse h) eqn:Hh; simpl; [|by eexists].
  destruct (accepted_absolute h Hh) as [url Ha]. rewrite Ha.
  destruct (String.eqb (ensure_slash url) SEARCH_URL); [by eexists|].
  eexists. split; [done|]. eapply push_new_good; eauto using first_nonempty_ne.
Qed.

Lemma anchor_step_good vs a :
  good_list vs -> exists vs', anchor_step url_parse vs a = Ret vs' /\ good_list vs'.
Proof.
  intros Hg. unfold anchor_step.
  destruct (trimmed_href (a_href a)) as [h|]; [|by eexists].
  destruct (isEpisodeUrl url_parse h) eqn:Hh; simpl; [|by eexists].
  destruct (accepted_absolute h Hh) as [url Ha]. rewrite Ha.
  eexists. split; [done|]. eapply push_new_good; eauto using first_nonempty_ne.
Qed.

Lemma each_good {A} (step : list VideoInfo -> A -> Res (list VideoInfo)) xs vs :
  (forall vs x, good_list vs -> exists vs', step vs x = Ret vs' /\ good_list vs') ->
  good_list vs -> exists vs', each step vs xs = Ret vs' /\ good_list vs'.
Proof.
  intros Hs. revert vs. induction xs as [|x r IH]; intros vs Hg; simpl; [by eexists|].
  destruct (Hs vs x Hg) as [vs' [-> Hg']]. by apply IH.
Qed.

Lemma good_nil : good_list [].
Proof. split; constructor. Qed.

Lemma search_good lst :
  exists vs, searchForVideos url_parse lst = Ret vs /\ good_list vs.
Proof.
  unfold searchForVideos.
  destruct (each_good _ (l_cards lst) [] card_step_good good_nil) as [vs [-> Hg]].
  destruct vs as [|v vs]; [|by eexists].
  apply each_good; [apply anchor_step_good|apply good_nil].
Qed.

End Listing.

(** Once the listing is rendered, [searchForVideos] never throws: every
    link [isEpisodeUrl] accepts is one [new URL] parses, so the [new URL]
    that makes it absolute cannot throw. *)
Theorem search_never_throws url_parse lst :
  searchForVideos url_parse lst <> Throw.
Proof. destruct (search_good url_parse lst) as [vs [-> _]]. discriminate. Qed.

(** The videos [searchForVideos] returns have pairwise distinct URLs and
    non-empty titles, and each URL is the absolute form of a link that
    [isEpisodeUrl] accepted. *)
Theorem search_results_wellformed url_parse lst vs :
  searchForVideos url_parse lst = Ret vs ->
  NoDup (map vi_url vs) /\
  Forall (fun v => vi_title v <> EmptyString /\
                   exists h, isEpisodeUrl url_parse h = true
                             /\ absolute url_parse h = Ret (vi_url v)) vs.
Proof.
  intros H. destruct (search_good url_parse lst) as [vs' [H' Hg]].
  rewrite H in H'. by injection H' as <-.
Qed.

(** A listing with two cards for one article and a link to the index. *)
Definition article : string := "https://www.wtap.com/2024/01/01/mental-health-mondays/".

Definition parse_sample (s : string) (base : option string) : option Url :=
  if String.eqb s article then
    Some {| u_href := article; u_pathname := "/2024/01/01/mental-health-mondays/" |}
  else if String.eqb s SEARCH_URL then
    Some {| u_href := SEARCH_URL;
            u_pathname := "/wtap-plus/podcasts/mental-health-mondays/" |}
  else None.

Definition listing_sample : Listing := {|
  l_cards := [
    {| card_href := Some article; card_heading := "  Episode 1 ";
       card_link_text := EmptyString |};
    {| card_href := Some SEARCH_URL; card_heading := "All episodes";
       card_link_text := EmptyString |};
    {| card_href := Some article; card_heading := EmptyString;
       card_link_text := EmptyString |} ];
  l_anchors := [] |}.

Lemma search_results_wellformed_witness :
  searchForVideos parse_sample listing_sample
  = Ret [{| vi_title := "Episode 1"; vi_url := article |}] /\
  NoDup (map vi_url [{| vi_title := "Episode 1"; vi_url := article |}]).
Proof.
  assert (H : searchForVideos parse_sample listing_sample
              = Ret [{| vi_title := "Episode 1"; vi_url := article |}])
    by (vm_compute; reflexivity).
  split; [exact H|].
  exact (proj1 (search_results_wellformed parse_sample listing_sample _ H)).
Defined.

End ExtraDiscovery.

(* ------------------------------------------------------------------ *)

Module ExtraResolver.
Import Json Resolver.

Lemma truthy_str_some (a : option string) s :
  truthy_str a = true -> a = Some s -> truthy (JStr s) = true.
Proof. intros H ->. exact H. Qed.

Lemma fusion_body_truthy md u :
  fusion_body md = Ret (Some u) -> truthy u = true.
Proof.
  unfold fusion_body. intros H.
  repeat (case_match; simplify_eq/=; try done).
Qed.

Section Strategies.
Variable json_parse : string -> option json.
Variable script_abs_url : string -> option string.
Variable script_key_url : string -> option string.

Lemma strategy_fusion_truthy pg u :
  strategy_fusion json_parse pg = Some u -> truthy u = true.
Proof.
  unfold strategy_fusion. intros H. repeat case_match; simplify_eq/=.
  eapply fusion_body_truthy. by rewrite H2.
Qed.

Lemma strategy_markup_truthy pg s :
  strategy_markup pg = Some s -> truthy (JStr s) = true.
Proof.
  unfold strategy_markup. case_eq (truthy_str (or_str (pg_video_source_src pg) (pg_video_src pg)));
    intros Ht H; [|discriminate]. by eapply truthy_str_some.
Qed.

Lemma strategy_scripts_truthy pg s :
  strategy_scripts script_abs_url script_key_url pg = Some s -> truthy (JStr s) = true.
Proof.
  unfold strategy_scripts. match goal with |- context [if truthy_str ?a then _ else _] =>
    case_eq (truthy_str a) end; intros Ht H; [|discriminate]. by eapply truthy_str_some.
Qed.

Lemma strategy_data_truthy pg s :
  strategy_data pg = Some s -> truthy (JStr s) = true.
Proof.
  unfold strategy_data. intros H. case_match; [|discriminate].
  case_match eqn:Hc; [|discriminate]. simplify_eq.
  apply andb_true_iff in Hc as [Hc _]. by eapply truthy_str_some.
Qed.

Lemma render_try_truthy rd s :
  render_try rd = Some s -> truthy (JStr s) = true.
Proof.
  unfold render_try. intros H. repeat case_match; simplify_eq/=; try done;
    eapply truthy_str_some; eauto.
Qed.

End Strategies.

(** A URL the resolver returns is never falsy (an empty string, [0],
    [false] or [null]): every strategy only returns a value it tested. *)
Theorem resolved_url_truthy json_parse script_abs_url script_key_url fetched rd u :
  extractVideoUrl json_parse script_abs_url script_key_url fetched rd = Ret (Some u) ->
  truthy u = true.
Proof.
  unfold extractVideoUrl. intros H. repeat case_match; simplify_eq/=;
    eauto using strategy_fusion_truthy, strategy_markup_truthy,
      strategy_scripts_truthy, strategy_data_truthy.
  unfold strategy_render in *. case_match; simplify_eq/=.
  eapply render_try_truthy; eauto.
Qed.

Lemma resolved_url_truthy_witness :
  extractVideoUrl (fun _ => None) (fun _ => None) (fun _ => None)
    (Some Samples.page_video) Samples.render_off
  = Ret (Some (JStr Samples.media_url)) /\ truthy (JStr Samples.media_url) = true.
Proof.
  assert (H : extractVideoUrl (fun _ => None) (fun _ => None) (fun _ => None)
                (Some Samples.page_video) Samples.render_off
              = Ret (Some (JStr Samples.media_url))) by reflexivity.
  split; [exact H|]. exact (resolved_url_truthy _ _ _ _ _ _ H).
Defined.

(** The resolver throws exactly when the page cannot be fetched, or when
    all four static strategies miss, the browser was launched and closing
    it fails. *)
Theorem resolver_throws_iff json_parse script_abs_url script_key_url fetched rd :
  extractVideoUrl json_parse script_abs_url script_key_url fetched rd = Throw <->
  fetched = None \/
  exists pg, fetched = Some pg /\ strategy_fusion json_parse pg = None /\
    strategy_markup pg = None /\
    strategy_scripts script_abs_url script_key_url pg = None /\
    strategy_data pg = None /\ rd_launch_ok rd = true /\ rd_close_ok rd = false.
Proof.
  unfold extractVideoUrl, strategy_render. split.
  - intros H. destruct fetched as [pg|]; [right|by left]. exists pg.
    repeat case_match; simplify_eq/=; try done.
    match goal with Hb : _ && negb _ = true |- _ =>
      apply andb_true_iff in Hb as [? Hc]; apply negb_true_iff in Hc end.
    done.
  - intros [->|[pg (-> & -> & -> & -> & -> & Hl & Hc)]]; [done|].
    by rewrite Hl, Hc.
Qed.

Definition render_close_rejects : Render := {|
  rd_launch_ok := true; rd_goto_ok := true; rd_responses := [];
  rd_eval := Some (Some Samples.media_url); rd_close_ok := false |}.

Lemma resolver_throws_iff_witness :
  extractVideoUrl (fun _ => None) (fun _ => None) (fun _ => None)
    (Some Samples.page_blank) render_close_rejects = Throw.
Proof.
  apply resolver_throws_iff. right. exists Samples.page_blank.
  split_and!; reflexivity.
Defined.

(** When one of the static strategies finds a URL, the browser is never
    used: the result does not depend on what rendering would do, not even
    on a failing [browser.close()]. *)
Theorem static_hit_ignores_browser json_parse script_abs_url script_key_url pg rd rd' :
  is_Some (strategy_fusion json_parse pg) \/ is_Some (strategy_markup pg) \/
  is_Some (strategy_scripts script_abs_url script_key_url pg) \/
  is_Some (strategy_data pg) ->
  extractVideoUrl json_parse script_abs_url script_key_url (Some pg) rd
  = extractVideoUrl json_parse script_abs_url script_key_url (Some pg) rd'.
Proof.
  intros H. unfold extractVideoUrl.
  destruct (strategy_fusion json_parse pg); [done|].
  destruct (strategy_markup pg); [done|].
  destruct (strategy_scripts script_abs_url script_key_url pg); [done|].
  destruct (strategy_data pg); [done|].
  destruct H as [[? H]|[[? H]|[[? H]|[? H]]]]; discriminate.
Qed.

Lemma static_hit_ignores_browser_witness :
  extractVideoUrl (fun _ => None) (fun _ => None) (fun _ => None)
    (Some Samples.page_video) Samples.render_off
  = extractVideoUrl (fun _ => None) (fun _ => None) (fun _ => None)
      (Some Samples.page_video) render_close_rejects.
Proof. apply static_hit_ignores_browser. right. left. by eexists. Defined.

Lemma media_at_app (l r : list ascii) : media_at r = true -> media_at (l ++ r) = true.
Proof.
  intros H. induction l as [|c l IH]; [done|].
  change (c :: l ++ r) with (c :: (l ++ r)). simpl media_at.
  rewrite IH. apply orb_true_r.
Qed.

(** Every URL that ends in [.mp4] or [.m3u8], in any letter case, possibly
    followed by a query, passes the media test of strategies 4 and 5. *)
Theorem media_suffix_accepted s ext q :
  map JsStr.lower (list_ascii_of_string ext) = list_ascii_of_string "mp4" \/
  map JsStr.lower (list_ascii_of_string ext) = list_ascii_of_string "m3u8" ->
  q = EmptyString \/ (exists r, q = ("?" ++ r)%string) ->
  is_media_url (s ++ "." ++ ext ++ q)%string = true.
Proof.
  intros He Hq. unfold is_media_url.
  rewrite !NameFacts.list_ascii_of_string_app. apply media_at_app.
  simpl list_ascii_of_string. simpl media_at. rewrite map_app.
  destruct Hq as [->|[r ->]]; destruct He as [He|He]; rewrite He; reflexivity.
Qed.

Lemma media_suffix_accepted_witness :
  is_media_url ("https://cdn.example/clip" ++ "." ++ "MP4" ++ "?" ++ "t=1")%string = true.
Proof.
  apply media_suffix_accepted; [left; reflexivity|right; by eexists].
Defined.

End ExtraResolver.

(* ------------------------------------------------------------------ *)

Module ExtraPipeline.
Import Json Catalog Pipeline NameFacts StepFacts RunFacts.

(** [downloadVideo] fetches only when neither the audio nor the video
    file exists, and touches no file but the video file.  It returns
    [true] only when the audio file was absent and the video file is
    there afterwards; when it returns [false] the state is unchanged or
    the video file is absent. *)
Theorem download_contract st dl url f st' b :
  downloadVideo st dl url f = (st', b) ->
  st_files st' ∖ {[f]} = st_files st ∖ {[f]} /\
  (st_log st' = st_log st
   \/ ((Naming.to_mp3 f ∉ st_files st) /\ (f ∉ st_files st) /\
       st_log st' = st_log st ++ [EvDownload url f])) /\
  (b = true -> (Naming.to_mp3 f ∉ st_files st) /\ f ∈ st_files st') /\
  (b = false -> st' = st \/ (f ∉ st_files st')).
Proof.
  unfold downloadVideo. intros H.
  case_bool_decide as Ha; [simplify_eq; split_and!; auto; discriminate|].
  case_bool_decide as Hv; [simplify_eq; split_and!; auto; discriminate|].
  destruct dl; simplify_eq/=; split_and!; try set_solver; try discriminate;
    right; split_and!; done.
Qed.

Definition st_empty : State := {| st_files := ∅; st_log := []; st_yaml := [] |}.

Lemma download_contract_witness :
  downloadVideo st_empty DlOk (JStr Samples.media_url) Samples.video_name
  = ({| st_files := {[Samples.video_name]};
        st_log := [EvDownload (JStr Samples.media_url) Samples.video_name];
        st_yaml := [] |}, true) /\
  Samples.video_name ∈ ({[Samples.video_name]} : Files).
Proof.
  assert (H : downloadVideo st_empty DlOk (JStr Samples.media_url) Samples.video_name
    = ({| st_files := {[Samples.video_name]};
          st_log := [EvDownload (JStr Samples.media_url) Samples.video_name];
          st_yaml := [] |}, true)).
  { unfold downloadVideo. rewrite !bool_decide_false by set_solver.
    unfold set_files, log. simpl. by rewrite union_empty_r_L. }
  split; [exact H|].
  exact (proj2 (proj1 (proj2 (proj2 (download_contract _ _ _ _ _ _ H))) eq_refl)).
Defined.

(** [extractAudio] on a name the [.mp4] rule turns into a different audio
    name: it touches no file but these two; on success the audio file
    exists and the video file is gone; on failure the video file is left
    as it was. *)
Theorem transcode_contract st tr f st' b :
  Naming.to_mp3 f <> f ->
  extractAudio st tr f = (st', b) ->
  (forall x, x <> f -> x <> Naming.to_mp3 f ->
     x ∈ st_files st' <-> x ∈ st_files st) /\
  (b = true -> Naming.to_mp3 f ∈ st_files st' /\ f ∉ st_files st') /\
  (b = false -> f ∈ st_files st' <-> f ∈ st_files st).
Proof.
  intros Hne H. unfold extractAudio in H.
  destruct tr as [|[]]; simplify_eq/=; split_and!; try set_solver; try discriminate.
Qed.

Lemma transcode_contract_witness :
  Naming.to_mp3 Samples.video_name <> Samples.video_name /\
  Samples.video_name ∉ st_files (extractAudio
    {| st_files := {[Samples.video_name]}; st_log := []; st_yaml := [] |}
    TrOk Samples.video_name).1.
Proof.
  assert (Hne : Naming.to_mp3 Samples.video_name <> Samples.video_name)
    by (intros Heq; vm_compute in Heq; discriminate).
  split; [exact Hne|].
  destruct (transcode_contract
              {| st_files := {[Samples.video_name]}; st_log := []; st_yaml := [] |}
              TrOk Samples.video_name _ true Hne eq_refl) as (_ & Ht & _).
  exact (proj2 (Ht eq_refl)).
Defined.

Lemma tag_phase_queue E gy st ep a :
  st_yaml (tag_phase E gy st ep a) = st_yaml st \/
  exists e, st_yaml (tag_phase E gy st ep a) = st_yaml st ++ [e] /\
            n_file e = a /\ a ∈ st_files st.
Proof.
  unfold tag_phase. case_bool_decide; [|by left].
  destruct gy; [|by left]. destruct (yaml_entry E ep a) as [e|] eqn:He; [|by left].
  right. exists e. split_and!; [reflexivity| |done].
  unfold yaml_entry in He. repeat case_match; simplify_eq/=; done.
Qed.

Lemma step_queue E gy st ep st' :
  process_episode E gy st ep = Ret st' ->
  st_yaml st' = st_yaml st \/
  exists e, st_yaml st' = st_yaml st ++ [e] /\ n_file e = audio_of E ep /\
            audio_of E ep ∈ st_files st'.
Proof.
  intros H. unfold process_episode, downloadVideo, extractAudio in H.
  repeat (case_match || case_bool_decide); simplify_eq/=;
  first [by left
        | match goal with |- context [tag_phase E gy ?s ep ?a] =>
            destruct (tag_phase_queue E gy s ep a) as [Hq|[e (Hq & Hf & Ha)]];
            [left; rewrite Hq; done|right; exists e; rewrite Hq, tag_phase_files; done]
          end].
Qed.

Definition queued_ok E (D : list EpisodeInput) (st : State) : Prop :=
  forall e, e ∈ st_yaml st ->
    n_file e ∈ st_files st /\ exists ep, ep ∈ D /\ n_file e = audio_of E ep.

Lemma step_queued_ok E gy D st ep st' :
  queued_ok E D st -> process_episode E gy st ep = Ret st' ->
  queued_ok E (D ++ [ep]) st'.
Proof.
  intros Hq H e He.
  destruct (step_queue E gy st ep st' H) as [Hy|[e' (Hy & Hf & Ha)]];
    rewrite Hy in He.
  - destruct (Hq e He) as [Hin [ep0 [Hd Hn]]]. split.
    + rewrite Hn in *. eapply step_keeps_audio; eauto.
    + exists ep0. split; [apply elem_of_app; by left|done].
  - apply elem_of_app in He as [He|He].
    + destruct (Hq e He) as [Hin [ep0 [Hd Hn]]]. split.
      * rewrite Hn in *. eapply step_keeps_audio; eauto.
      * exists ep0. split; [apply elem_of_app; by left|done].
    + apply list_elem_of_singleton in He as ->. rewrite Hf. split; [done|].
      exists ep. split; [apply elem_of_app; right; by left|done].
Qed.

Lemma process_all_queued_ok E gy eps D st :
  queued_ok E D st -> queued_ok E (D ++ eps) (process_all E gy st eps).1.
Proof.
  revert D st. induction eps as [|ep r IH]; intros D st Hq; simpl.
  - by rewrite app_nil_r.
  - destruct (process_episode E gy st ep) as [st'|] eqn:Hs; simpl.
    + replace (D ++ ep :: r) with ((D ++ [ep]) ++ r) by by rewrite <- app_assoc.
      apply IH. by eapply step_queued_ok.
    + intros e He. destruct (Hq e He) as [Hin [ep0 [Hd Hn]]].
      split; [done|]. exists ep0. split; [apply elem_of_app; by left|done].
Qed.

(** Every catalog entry a run queues (from an empty queue, as [main]
    starts) names the audio file of one of the run's episodes, and that
    file exists when the loop ends, even if the loop was aborted. *)
Theorem queued_entries_exist E gy st eps :
  st_yaml st = [] ->
  forall e, e ∈ st_yaml (process_all E gy st eps).1 ->
    n_file e ∈ st_files (process_all E gy st eps).1 /\
    exists ep, ep ∈ eps /\ n_file e = audio_of E ep.
Proof.
  intros H0. apply (process_all_queued_ok E gy eps [] st).
  intros e He. rewrite H0 in He. by apply not_elem_of_nil in He.
Qed.

Definition run_sample : State :=
  (process_all Samples.env0 true st_empty
     [Samples.episode (Some Samples.page_video) DlOk TrOk]).1.

Definition entry_sample : NewEpisode := {|
  n_file := Samples.audio_name; n_title := "Ep"; n_description := EmptyString;
  n_pub_date := JsDate.to_iso_string Samples.day0; n_explicit := false;
  n_season := 1; n_episode_type := "full" |}.

Lemma queued_entries_exist_witness :
  entry_sample ∈ st_yaml run_sample /\ n_file entry_sample ∈ st_files run_sample.
Proof.
  assert (He : entry_sample ∈ st_yaml run_sample).
  { apply list_elem_of_In. vm_compute. left. reflexivity. }
  split; [exact He|].
  exact (proj1 (queued_entries_exist Samples.env0 true st_empty
                  [Samples.episode (Some Samples.page_video) DlOk TrOk]
                  eq_refl entry_sample He)).
Defined.





End ExtraPipeline.

(* ------------------------------------------------------------------ *)

Module ExtraDates.
Import JsStr JsDate Naming Meta.
Local Open Scope string_scope.

Definition months : list string := ["01"; "02"; "03"; "04"; "05"; "06"; "07"; "08"; "09"; "10"; "11"; "12"].
Definition days : list string := ["01"; "02"; "03"; "04"; "05"; "06"; "07"; "08"; "09"; "10"; "11"; "12"; "13"; "14"; "15"; "16"; "17"; "18"; "19"; "20"; "21"; "22"; "23"; "24"; "25"; "26"; "27"; "28"; "29"; "30"; "31"].

Lemma doy_range doe : (0 <= doe <= 146096)%Z ->
  let yoe := ((doe - doe / 1460 + doe / 36524 - doe / 146096) / 365)%Z in
  let doy := (doe - (365 * yoe + yoe / 4 - yoe / 100))%Z in
  (0 <= doy <= 365)%Z.
Proof. intros H. cbv zeta. Z.div_mod_to_equations. lia. Qed.

Lemma md_range doy : (0 <= doy <= 365)%Z ->
  let mp := ((5 * doy + 2) / 153)%Z in
  let d := (doy - (153 * mp + 2) / 5 + 1)%Z in
  let m := if (mp <? 10)%Z then (mp + 3)%Z else (mp - 9)%Z in
  (1 <= m <= 12)%Z /\ (1 <= d <= 31)%Z.
Proof.
  intros H. cbv zeta.
  destruct (Z.ltb_spec ((5 * doy + 2) / 153) 10); Z.div_mod_to_equations; lia.
Qed.

(** Month and day of [civil_from_days] are in range, for every day. *)
Lemma civil_range days y m d :
  civil_from_days days = (y, m, d) -> (1 <= m <= 12)%Z /\ (1 <= d <= 31)%Z.
Proof.
  unfold civil_from_days. cbv zeta. intros H. injection H as _ Hm Hd.
  remember (days + 719468)%Z as z.
  assert (Hdoe : (0 <= z - z / 146097 * 146097 <= 146096)%Z)
    by (Z.div_mod_to_equations; lia).
  remember (z - z / 146097 * 146097)%Z as doe.
  pose proof (doy_range doe Hdoe) as Hdoy. cbv zeta in Hdoy.
  remember (doe - (365 * ((doe - doe / 1460 + doe / 36524 - doe / 146096) / 365)
     + (doe - doe / 1460 + doe / 36524 - doe / 146096) / 365 / 4
     - (doe - doe / 1460 + doe / 36524 - doe / 146096) / 365 / 100))%Z as doy.
  pose proof (md_range doy Hdoy) as Hmd. cbv zeta in Hmd. by subst m d.
Qed.

Lemma pad_month m : (1 <= m <= 12)%Z -> pad_start 2 (of_Z m) ∈ months.
Proof.
  intros H. assert (Hc : (m = 1 \/ m = 2 \/ m = 3 \/ m = 4 \/ m = 5 \/ m = 6 \/ m = 7 \/ m = 8 \/ m = 9 \/ m = 10 \/ m = 11 \/ m = 12)%Z) by lia.
  repeat destruct Hc as [->|Hc]; subst;
    apply list_elem_of_In; vm_compute; repeat (first [left; reflexivity | right]).
Qed.

Lemma pad_day d : (1 <= d <= 31)%Z -> pad_start 2 (of_Z d) ∈ days.
Proof.
  intros H. assert (Hc : (d = 1 \/ d = 2 \/ d = 3 \/ d = 4 \/ d = 5 \/ d = 6 \/ d = 7 \/ d = 8 \/ d = 9 \/ d = 10 \/ d = 11 \/ d = 12 \/ d = 13 \/ d = 14 \/ d = 15 \/ d = 16 \/ d = 17 \/ d = 18 \/ d = 19 \/ d = 20 \/ d = 21 \/ d = 22 \/ d = 23 \/ d = 24 \/ d = 25 \/ d = 26 \/ d = 27 \/ d = 28 \/ d = 29 \/ d = 30 \/ d = 31)%Z) by lia.
  repeat destruct Hc as [->|Hc]; subst;
    apply list_elem_of_In; vm_compute; repeat (first [left; reflexivity | right]).
Qed.

End ExtraDates.

Module ExtraNaming.
Import JsStr JsDate Naming Pipeline Meta ExtraDates.
Local Open Scope string_scope.

Section Tz.
Variable parse_date : string -> option Z.
Variable tz_offset : Z -> Z.

(** The file name carries the ID3 recording date [tagAudio] writes for
    the same metadata, or, when there is none, the date of the run. *)
Theorem name_carries_tag_date meta now :
  buildFilenameFromPubDate parse_date tz_offset (m_pubDate meta) now
  = "Mental-Health-Mondays-"
    ++ default (substring 0 10 (to_iso_string now))
         (tg_recordingTime (build_tags parse_date tz_offset meta))
    ++ ".mp4".
Proof.
  unfold buildFilenameFromPubDate, build_tags.
  destruct (m_pubDate meta) as [p|]; [|done].
  destruct (String.eqb p EmptyString); [done|].
  destruct (parse_date p) as [t|]; [|done].
  by destruct (local_ymd tz_offset t) as [[y m] d].
Qed.

(** A publish date that parses gives a file name
    [Mental-Health-Mondays-YYYY-MM-DD.mp4] whose month is one of
    [01]..[12] and whose day is one of [01]..[31], in the local time of
    the process; the ID3 tags of the same metadata carry this date as
    recording time, its year as year, and [DDMM] as date. *)
Theorem dated_name_format meta p now t :
  m_pubDate meta = Some p -> p <> EmptyString -> parse_date p = Some t ->
  exists y mm dd,
    buildFilenameFromPubDate parse_date tz_offset (m_pubDate meta) now
    = "Mental-Health-Mondays-" ++ of_Z y ++ "-" ++ mm ++ "-" ++ dd ++ ".mp4" /\
    mm ∈ months /\ dd ∈ days /\
    tg_recordingTime (build_tags parse_date tz_offset meta)
      = Some (of_Z y ++ "-" ++ mm ++ "-" ++ dd) /\
    tg_year (build_tags parse_date tz_offset meta) = Some (of_Z y) /\
    tg_date (build_tags parse_date tz_offset meta) = Some (dd ++ mm).
Proof.
  intros Hm Hp Ht. unfold buildFilenameFromPubDate, build_tags. rewrite Hm.
  rewrite (proj2 (String.eqb_neq p EmptyString) Hp), Ht.
  destruct (local_ymd tz_offset t) as [[y m] d] eqn:Hl.
  unfold local_ymd, utc_ymd in Hl. apply civil_range in Hl as [Hmr Hdr].
  exists y, (pad_start 2 (of_Z m)), (pad_start 2 (of_Z d)).
  split_and!; [by rewrite <- !NameFacts.string_app_assoc|apply pad_month, Hmr
              |apply pad_day, Hdr|done|done|done].
Qed.

End Tz.

Lemma dated_name_format_witness :
  exists y mm dd,
    buildFilenameFromPubDate (Pipeline.env_parse_date Samples.env0)
      (Pipeline.env_tz_offset Samples.env0) (Pipeline.m_pubDate Samples.meta0) 0
    = "Mental-Health-Mondays-" ++ of_Z y ++ "-" ++ mm ++ "-" ++ dd ++ ".mp4" /\
    mm ∈ months /\ dd ∈ days /\
    tg_recordingTime (build_tags (Pipeline.env_parse_date Samples.env0)
                        (Pipeline.env_tz_offset Samples.env0) Samples.meta0)
      = Some (of_Z y ++ "-" ++ mm ++ "-" ++ dd) /\
    tg_year (build_tags (Pipeline.env_parse_date Samples.env0)
               (Pipeline.env_tz_offset Samples.env0) Samples.meta0) = Some (of_Z y) /\
    tg_date (build_tags (Pipeline.env_parse_date Samples.env0)
               (Pipeline.env_tz_offset Samples.env0) Samples.meta0) = Some (dd ++ mm).
Proof.
  apply (dated_name_format _ _ Samples.meta0 "2024-01-01" 0 Samples.day0);
    [reflexivity|discriminate|reflexivity].
Defined.

End ExtraNaming.

Module ExtraMeta.
Import JsStr JsDate Naming Pipeline Meta.
Local Open Scope string_scope.



(** Once the article is fetched, the catalog title is the trimmed
    [og:title], or the trimmed [<title>] text when [og:title] is missing
    or empty, even when that text is empty: the default title is only
    used when the fetch fails. *)
Theorem fetched_title_not_default E ep a e p :
  ep_meta ep = fetchArticleMeta (Some p) -> yaml_entry E ep a = Some e ->
  Catalog.n_title e
  = trim (if Resolver.truthy_str (mp_og_title p) then default EmptyString (mp_og_title p)
          else mp_title_text p).
Proof.
  intros H He. unfold yaml_entry in He. rewrite H in He. simpl in He.
  assert (Ht : Catalog.n_title e
               = default Discovery.DEFAULT_TITLE
                   (option_map trim (Resolver.or_str (mp_og_title p)
                                       (Some (mp_title_text p))))).
  { repeat case_match; simplify_eq/=; done. }
  rewrite Ht. unfold Resolver.or_str, Resolver.truthy_str.
  destruct (mp_og_title p) as [s|]; [|done].
  by destruct (String.eqb s EmptyString).
Qed.

Definition page_untitled : MetaPage := {|
  mp_og_title := None; mp_title_text := "  "; mp_description := None;
  mp_og_description := None; mp_published_time := Some "2024-01-01";
  mp_time_datetime := None |}.

Definition ep_untitled : EpisodeInput :=
  {| ep_video := Samples.video0; ep_page := None; ep_render := Samples.render_off;
     ep_meta := fetchArticleMeta (Some page_untitled); ep_now := Samples.day0;
     ep_yaml_now := Samples.day0; ep_download := DlOk; ep_transcode := TrOk |}.

Definition entry_untitled : Catalog.NewEpisode :=
  match yaml_entry Samples.env0 ep_untitled Samples.audio_name with
  | Some e => e
  | None => {| Catalog.n_file := EmptyString; Catalog.n_title := EmptyString;
               Catalog.n_description := EmptyString; Catalog.n_pub_date := EmptyString;
               Catalog.n_explicit := false; Catalog.n_season := 0;
               Catalog.n_episode_type := EmptyString |}
  end.

Lemma fetched_title_not_default_witness :
  Catalog.n_title entry_untitled = EmptyString.
Proof.
  rewrite (fetched_title_not_default Samples.env0 ep_untitled Samples.audio_name
             entry_untitled page_untitled eq_refl); [reflexivity|].
  vm_compute. reflexivity.
Defined.

End ExtraMeta.

Module ExtraEpisodeName.
Import JsStr Naming.
Local Open Scope string_scope.











End ExtraEpisodeName.

(* ------------------------------------------------------------------ *)

Module ExtraFlag.
Import Json Catalog Pipeline.

(** Two loop states with the same files and the same log. *)
Definition same_fl (s1 s2 : State) : Prop :=
  st_files s1 = st_files s2 /\ st_log s1 = st_log s2.

Definition res_related (r1 r2 : Res State) : Prop :=
  match r1, r2 with
  | Ret a, Ret b => same_fl a b
  | Throw, Throw => True
  | _, _ => False
  end.

Lemma step_flag E gy1 gy2 st1 st2 ep :
  same_fl st1 st2 ->
  res_related (process_episode E gy1 st1 ep) (process_episode E gy2 st2 ep).
Proof.
  destruct st1 as [F1 L1 Y1], st2 as [F2 L2 Y2]. intros [HF HL]; simpl in HF, HL; subst.
  unfold process_episode.
  destruct (Resolver.extractVideoUrl _ _ _ _ _) as [u|]; simpl; [|done].
  destruct (negb (truthy_opt u)); simpl; [split; done|].
  unfold downloadVideo, extractAudio, log, set_files; simpl.
  repeat case_bool_decide; simpl; try done;
  repeat match goal with
  | |- context [match ?d with DlOk => _ | DlFailEarly => _ | DlFailPartial => _ end] =>
      destruct d
  | |- context [match ?t with TrOk => _ | TrFail _ => _ end] => destruct t as [|[]]
  end; simpl; try done;
  unfold tag_phase, push_yaml, log; simpl;
  repeat (case_bool_decide || case_match); simpl; split; done.
Qed.

Lemma all_flag E gy1 gy2 eps st1 st2 :
  same_fl st1 st2 ->
  same_fl (process_all E gy1 st1 eps).1 (process_all E gy2 st2 eps).1 /\
  (process_all E gy1 st1 eps).2 = (process_all E gy2 st2 eps).2.
Proof.
  revert st1 st2. induction eps as [|ep r IH]; intros st1 st2 H; simpl; [done|].
  pose proof (step_flag E gy1 gy2 st1 st2 ep H) as Hs.
  destruct (process_episode E gy1 st1 ep), (process_episode E gy2 st2 ep);
    simpl in Hs; try done. by apply IH.
Qed.

(** [GENERATE_YAML] changes nothing but the catalog: a run with it and a
    run without it, over the same data directory and episodes, leave the
    same files, perform the same downloads, transcodes and tag writes,
    and abort alike; without it the catalog is never touched, and an
    aborted run leaves the catalog as it was either way. *)
Theorem yaml_flag_only_affects_catalog E template ok w vs :
  w_files (o_world (main E true template ok w vs))
  = w_files (o_world (main E false template ok w vs)) /\
  o_log (main E true template ok w vs) = o_log (main E false template ok w vs) /\
  o_aborted (main E true template ok w vs) = o_aborted (main E false template ok w vs) /\
  w_catalog (o_world (main E false template ok w vs)) = w_catalog w /\
  (o_aborted (main E true template ok w vs) = true ->
   w_catalog (o_world (main E true template ok w vs)) = w_catalog w).
Proof.
  unfold main. destruct vs as [|ep vs]; [done|].
  match goal with |- context [process_all E true ?s0 ?l] =>
    destruct (all_flag E true false l s0 s0 (conj eq_refl eq_refl)) as [[HF HL] Ha];
    destruct (process_all E true s0 l) as [st1 ab1];
    destruct (process_all E false s0 l) as [st2 ab2] end.
  simpl in *. subst ab2.
  destruct ab1; simpl; split_and!; try done.
Qed.

Definition world_empty : World := {| w_files := ∅; w_catalog := None |}.

Lemma yaml_flag_only_affects_catalog_witness :
  o_log (main Samples.env0 true None true world_empty
           [Samples.episode (Some Samples.page_video) DlOk TrOk])
  = o_log (main Samples.env0 false None true world_empty
             [Samples.episode (Some Samples.page_video) DlOk TrOk]).
Proof.
  exact (proj1 (proj2 (yaml_flag_only_affects_catalog Samples.env0 None true world_empty
                         [Samples.episode (Some Samples.page_video) DlOk TrOk]))).
Defined.

End ExtraFlag.
